(** * The gateway client of the desktop application

    A shallow embedding of [GatewayClient] (the class that keeps the
    WebSocket connection to the local gateway): its fields, its methods
    and the four callbacks that [connect] installs on every socket.

    The class runs on the single-threaded event loop of the web view, so
    every method and every callback is a function from the state of the
    world before it runs to the state after it.  The world holds the
    client's own fields together with the host objects the client talks
    to: the sockets it has created, the timers it has armed and the
    promises it has handed out.  What the client does to the outside (the
    observers it calls, the frames it sends, the console) is appended to a
    trace, in program order. *)

From stdpp Require Import gmap strings list fin_maps.
From Stdlib Require Import ZArith.

(** ** Values *)

(** A value produced by [JSON.parse].  Only the truthiness of a number is
    ever inspected, so numbers are kept as integers. *)
#[warnings="-register-all"]
Inductive json : Type :=
  | JNull
  | JBool (b : bool)
  | JNum (n : Z)
  | JStr (s : string)
  | JArr (items : list json)
  | JObj (fields : list (string * json)).

(** A JavaScript value as the client sees it: [None] is [undefined]. *)
Definition jsval : Type := option json.

(** What a [catch] or a rejection handler can receive: an [Error] object
    built by the client, or a value taken from a frame. *)
Inductive thrown : Type :=
  | JsError (message : string)
  | JsValue (v : jsval).

(** [JSON.parse] keeps the last of several members with one name. *)
Fixpoint assoc_last (k : string) (l : list (string * json)) : jsval :=
  match l with
  | [] => None
  | (k', v) :: l' =>
      match assoc_last k l' with
      | Some v' => Some v'
      | None => if decide (k = k') then Some v else None
      end
  end.

(** [frame.k] for the member names the client reads; none of them lives on
    a prototype, so anything but an object answers [undefined].  Reading a
    member of [null] throws and is handled by the caller. *)
Definition get_field (frame : json) (k : string) : jsval :=
  match frame with
  | JObj l => assoc_last k l
  | _ => None
  end.

(** [if (v)] *)
Definition truthy (v : jsval) : bool :=
  match v with
  | None | Some JNull => false
  | Some (JBool b) => b
  | Some (JNum n) => negb (n =? 0)%Z
  | Some (JStr s) => negb (String.eqb s "")
  | Some (JArr _) | Some (JObj _) => true
  end.

(** [v === lit] for a string literal [lit] *)
Definition strict_eq_str (v : jsval) (lit : string) : bool :=
  match v with
  | Some (JStr s) => String.eqb s lit
  | _ => false
  end.

(** [s.substring(n)] *)
Definition substring_from (n : nat) (s : string) : string :=
  String.substring n (String.length s - n) s.

(** ** Host objects *)

(** [WebSocket.readyState] *)
Inductive ReadyState : Type := CONNECTING | OPEN | CLOSING | CLOSED.

#[global] Instance ReadyState_eq_dec : EqDecision ReadyState.
Proof. solve_decision. Defined.

Inductive settled : Type :=
  | Fulfilled (v : jsval)
  | Rejected (e : jsval).

(** A promise made by [request]: still waiting, or settled for good. *)
Inductive promise : Type :=
  | Waiting
  | Done (r : settled).

(** Everything the client does to its surroundings. *)
Inductive effect : Type :=
  | ConsoleLog (args : list string)
  | ConsoleError (msg : string) (e : thrown)
  | StatusChange (connected : bool)        (* this.onStatusChange(b) *)
  | OnEvent (event payload : jsval)        (* this.onEvent(e, p) *)
  | SockNew (s : nat) (url : string)       (* new WebSocket(url) *)
  | SockSend (s : nat) (frame : json)      (* ws.send(JSON.stringify(frame)) *)
  | SockClose (s : nat)                    (* ws.close() on a live socket *)
  | SetTimeout (handle : nat) (ms : Z)
  | Settle (p : nat) (r : settled)         (* resolve / reject of a caller *)
  | Uncaught (name : string).              (* exception leaving a callback *)

(** ** The client and its world *)

(** The fields of the class.  A socket is named by its index in
    [sockets], a pending entry [{resolve, reject}] by the promise both
    closures belong to. *)
Record GatewayClient : Type := mkClient {
  url : string;
  token : string;
  ws : option nat;
  pending : gmap string nat;
  reconnectTimer : option nat
}.

Record World : Type := mkWorld {
  client : GatewayClient;
  sockets : list ReadyState;      (* every WebSocket created so far *)
  timers : gset nat;              (* armed timeouts, by handle *)
  timer_seq : nat;                (* the last handle the host gave out *)
  promises : list promise;        (* every promise request() created *)
  handshakes : gset nat;          (* promises an authenticate() awaits *)
  trace : list effect
}.

Definition with_client (f : GatewayClient → GatewayClient) (w : World) : World :=
  mkWorld (f (client w)) (sockets w) (timers w) (timer_seq w)
          (promises w) (handshakes w) (trace w).

Definition set_ws (v : option nat) (c : GatewayClient) : GatewayClient :=
  mkClient (url c) (token c) v (pending c) (reconnectTimer c).

Definition set_pending (m : gmap string nat) (c : GatewayClient) : GatewayClient :=
  mkClient (url c) (token c) (ws c) m (reconnectTimer c).

Definition set_reconnectTimer (t : option nat) (c : GatewayClient) : GatewayClient :=
  mkClient (url c) (token c) (ws c) (pending c) t.

Definition set_sockets (l : list ReadyState) (w : World) : World :=
  mkWorld (client w) l (timers w) (timer_seq w) (promises w) (handshakes w) (trace w).

Definition set_timers (t : gset nat) (n : nat) (w : World) : World :=
  mkWorld (client w) (sockets w) t n (promises w) (handshakes w) (trace w).

Definition set_promises (l : list promise) (w : World) : World :=
  mkWorld (client w) (sockets w) (timers w) (timer_seq w) l (handshakes w) (trace w).

Definition set_handshakes (h : gset nat) (w : World) : World :=
  mkWorld (client w) (sockets w) (timers w) (timer_seq w) (promises w) h (trace w).

Definition emit (e : effect) (w : World) : World :=
  mkWorld (client w) (sockets w) (timers w) (timer_seq w)
          (promises w) (handshakes w) (trace w ++ [e]).

(** [new GatewayClient(url, token, onEvent, onStatusChange)] in a fresh
    page. *)
Definition init (u t : string) : World :=
  mkWorld (mkClient u t None ∅ None) [] ∅ 0 [] ∅ [].

(** ** Host operations *)

(** [s.close()]: starts the closing handshake of a socket that is
    connecting or open, does nothing to one that is closing or closed.
    The close event comes later, from the host. *)
Definition sock_close (s : nat) (w : World) : World :=
  match sockets w !! s with
  | Some CONNECTING | Some OPEN =>
      emit (SockClose s) (set_sockets (<[s := CLOSING]> (sockets w)) w)
  | _ => w
  end.

(** [this.ws?.close()] *)
Definition close_current (w : World) : World :=
  match ws (client w) with
  | Some s => sock_close s w
  | None => w
  end.

(** The settling of a promise: [resolve] and [reject] act once, a settled
    promise ignores them.  An [authenticate] suspended on the promise
    resumes and writes to the console. *)
Definition settle (p : nat) (r : settled) (w : World) : World :=
  match promises w !! p with
  | Some Waiting =>
      let w1 := emit (Settle p r) (set_promises (<[p := Done r]> (promises w)) w) in
      if decide (p ∈ handshakes w) then
        let w2 := set_handshakes (handshakes w ∖ {[p]}) w1 in
        match r with
        | Fulfilled _ => emit (ConsoleLog ["Authenticated with gateway"]) w2
        | Rejected e => emit (ConsoleError "Authentication failed:" (JsValue e)) w2
        end
      else w1
  | _ => w
  end.

(** ** Methods of the class *)

(** [connect()] *)
Definition connect (w : World) : World :=
  let w1 := emit (ConsoleLog ["Connecting to gateway:"; url (client w)]) w in
  let s := length (sockets w1) in
  let w2 := emit (SockNew s (url (client w1)))
                 (set_sockets (sockets w1 ++ [CONNECTING]) w1) in
  with_client (set_ws (Some s)) w2.

(** [if (this.reconnectTimer)]: a handle is a number, [null] is falsy. *)
Definition timer_set (t : option nat) : bool :=
  match t with
  | None => false
  | Some h => negb (h =? 0)
  end.

Definition reconnect_delay : Z := 3000.

(** [scheduleReconnect()]; the host numbers its timeouts 1, 2, 3, ... *)
Definition scheduleReconnect (w : World) : World :=
  if timer_set (reconnectTimer (client w)) then w
  else
    let h := S (timer_seq w) in
    let w1 := emit (SetTimeout h reconnect_delay)
                   (set_timers ({[h]} ∪ timers w) h w) in
    with_client (set_reconnectTimer (Some h)) w1.

(** The outcome of a call of [request]: the async function rejects at
    once with an [Error], or hands back the promise it has recorded. *)
Inductive request_outcome : Type :=
  | Throws (message : string)
  | Awaits (p : nat).

(** [request(method, params = {})].  [rnd] is
    [Math.random().toString(36)] as drawn by this call. *)
Definition request (method : string) (params : jsval) (rnd : string)
    (w : World) : request_outcome * World :=
  match ws (client w) with
  | None => (Throws "Not connected to gateway", w)
  | Some s =>
      if decide (sockets w !! s = Some OPEN) then
        let id := substring_from 2 rnd in
        let frame := JObj [("type", JStr "req"); ("id", JStr id);
                           ("method", JStr method);
                           ("params", default (JObj []) params)] in
        let p := length (promises w) in
        let w1 := set_promises (promises w ++ [Waiting]) w in
        let w2 := with_client (set_pending (<[id := p]> (pending (client w1)))) w1 in
        (Awaits p, emit (SockSend s frame) w2)
      else (Throws "Not connected to gateway", w)
  end.

Definition handshake_params (tok : string) : json :=
  JObj [("minProtocol", JNum 3); ("maxProtocol", JNum 3);
        ("client", JObj [("id", JStr "openclaw-macos"); ("version", JStr "0.1.0");
                         ("platform", JStr "macos"); ("mode", JStr "webchat")]);
        ("role", JStr "operator");
        ("auth", JObj [("token", JStr tok)])].

(** [authenticate()]: runs [request] and suspends on its promise, or
    catches the error at once. *)
Definition authenticate (rnd : string) (w : World) : World :=
  match request "connect" (Some (handshake_params (token (client w)))) rnd w with
  | (Throws msg, w1) => emit (ConsoleError "Authentication failed:" (JsError msg)) w1
  | (Awaits p, w1) => set_handshakes ({[p]} ∪ handshakes w1) w1
  end.

(** [disconnect()] *)
Definition disconnect (w : World) : World := close_current w.

(** ** The callbacks installed by [connect] *)

Definition onopen (rnd : string) (w : World) : World :=
  authenticate rnd (emit (StatusChange true) w).

(** [this.pending.get(k)]: the keys of the table are strings. *)
Definition pending_get (k : jsval) (w : World) : option (string * nat) :=
  match k with
  | Some (JStr id) => (λ p, (id, p)) <$> pending (client w) !! id
  | _ => None
  end.

(** [onmessage]; [data] is [None] when [JSON.parse] throws. *)
Definition onmessage (data : option json) (w : World) : World :=
  match data with
  | None => emit (Uncaught "SyntaxError") w
  | Some JNull => emit (Uncaught "TypeError") w
  | Some frame =>
      if strict_eq_str (get_field frame "type") "res" then
        match pending_get (get_field frame "id") w with
        | Some (id, p) =>
            let w1 := with_client (set_pending (delete id (pending (client w)))) w in
            if truthy (get_field frame "ok")
            then settle p (Fulfilled (get_field frame "payload")) w1
            else settle p (Rejected (get_field frame "error")) w1
        | None => w
        end
      else if strict_eq_str (get_field frame "type") "event" then
        emit (OnEvent (get_field frame "event") (get_field frame "payload")) w
      else w
  end.

Definition onclose (w : World) : World :=
  scheduleReconnect (emit (StatusChange false) w).

Definition onerror (w : World) : World := close_current w.

(** The callback armed by [scheduleReconnect]. *)
Definition reconnect_fired (w : World) : World :=
  connect (with_client (set_reconnectTimer None) w).

(** ** The event loop *)

(** One turn of the event loop: a call from the user interface, or an
    event of the host. *)
Inductive input : Type :=
  | CallConnect
  | CallDisconnect
  | CallRequest (method : string) (params : jsval) (rnd : string)
  | EvOpen (s : nat) (rnd : string)         (* the connection is established *)
  | EvMessage (s : nat) (data : option json)
  | EvClose (s : nat) (failed : bool)       (* the connection is closed *)
  | EvTimeout (h : nat).

(** The host delivers an event only where the WebSocket and timer
    standards let it: [open] to a connecting socket, [message] to an open
    one, [close] once to a socket not yet closed (the ready state is
    [CLOSED] by then, and a failed connection fires [error] first), a
    timeout to an armed timer, which is thereby spent.  Any other event
    is not delivered. *)
Definition step (w : World) (i : input) : World :=
  match i with
  | CallConnect => connect w
  | CallDisconnect => disconnect w
  | CallRequest m ps rnd => snd (request m ps rnd w)
  | EvOpen s rnd =>
      match sockets w !! s with
      | Some CONNECTING => onopen rnd (set_sockets (<[s := OPEN]> (sockets w)) w)
      | _ => w
      end
  | EvMessage s data =>
      match sockets w !! s with
      | Some OPEN => onmessage data w
      | _ => w
      end
  | EvClose s failed =>
      match sockets w !! s with
      | Some CONNECTING | Some OPEN | Some CLOSING =>
          let w1 := set_sockets (<[s := CLOSED]> (sockets w)) w in
          onclose (if failed then onerror w1 else w1)
      | _ => w
      end
  | EvTimeout h =>
      if decide (h ∈ timers w)
      then reconnect_fired (set_timers (timers w ∖ {[h]}) (timer_seq w) w)
      else w
  end.

Definition run (w : World) (l : list input) : World := foldl step w l.

Inductive reachable (u t : string) : World → Prop :=
  | reachable_init : reachable u t (init u t)
  | reachable_step w i : reachable u t w → reachable u t (step w i).

(** ** What holds in every reachable world *)

(** The current socket exists; a promise in the pending table is still
    waiting and sits under one id only; the armed timers are exactly the
    one the client remembers, whose handle is a positive number. *)
Record wf (w : World) : Prop := mkWf {
  wf_ws : ∀ s, ws (client w) = Some s → s < length (sockets w);
  wf_waiting : ∀ id p,
    pending (client w) !! id = Some p → promises w !! p = Some Waiting;
  wf_inj : ∀ id1 id2 p,
    pending (client w) !! id1 = Some p → pending (client w) !! id2 = Some p →
    id1 = id2;
  wf_timers :
    timers w = match reconnectTimer (client w) with
               | Some h => {[h]}
               | None => ∅
               end;
  wf_handle : ∀ h, reconnectTimer (client w) = Some h → 0 < h
}.

(** ** Reading a trace *)

(** The promises a trace settles, and the timeouts it arms. *)
Definition settlements (tr : list effect) : list (nat * settled) :=
  omap (λ e, match e with Settle p r => Some (p, r) | _ => None end) tr.

Definition scheduled (tr : list effect) : list (nat * Z) :=
  omap (λ e, match e with SetTimeout h ms => Some (h, ms) | _ => None end) tr.

(** ** Frames and signals as the protocol names them *)

Definition is_response (frame : json) : Prop :=
  get_field frame "type" = Some (JStr "res").

Definition is_event (frame : json) : Prop :=
  get_field frame "type" = Some (JStr "event").

(** A response to the request [id] whose [ok] is a boolean. *)
Definition response_for (id : string) (frame : json) : Prop :=
  is_response frame ∧ get_field frame "id" = Some (JStr id) ∧
  ∃ b, get_field frame "ok" = Some (JBool b).

(** What the caller of the request is owed by a response. *)
Definition answer (frame : json) : settled :=
  match get_field frame "ok" with
  | Some (JBool true) => Fulfilled (get_field frame "payload")
  | _ => Rejected (get_field frame "error")
  end.

(** The host hands the frames to [onmessage] of socket [s], one by one. *)
Definition deliver (s : nat) (frames : list json) : list input :=
  map (λ f, EvMessage s (Some f)) frames.

Definition handler_calls (frames : list json) : list effect :=
  map (λ f, OnEvent (get_field f "event") (get_field f "payload")) frames.

(** The host can still report the close of socket [s]. *)
Definition can_close (w : World) (s : nat) : Prop :=
  ∃ st, sockets w !! s = Some st ∧ st ≠ CLOSED.

(** A burst of close signals, each for a socket and clean or failed. *)
Definition close_signals (closes : list (nat * bool)) : list input :=
  map (λ c : nat * bool, EvClose c.1 c.2) closes.


(** ** Statements of the specification that the class does not meet *)

(** The claim of C1 as the specification words it: once the close of
    socket [s] has been handled, the table is empty and every request
    that was in it has been rejected. *)
Definition close_drains (w : World) (s : nat) (failed : bool) : Prop :=
  let w' := step w (EvClose s failed) in
  pending (client w') = ∅ ∧
  ∀ id p, pending (client w) !! id = Some p →
          ∃ e, promises w' !! p = Some (Done (Rejected e)).


(** C7, the claim as the specification words it: the id drawn by a call
    of [request] is not in the table, and every entry that was there is
    still there afterwards. *)
Definition request_is_fresh (w : World) (method : string) (params : jsval)
    (rnd : string) : Prop :=
  ∀ p w', request method params rnd w = (Awaits p, w') →
    pending (client w) !! substring_from 2 rnd = None ∧
    ∀ id q, pending (client w) !! id = Some q → pending (client w') !! id = Some q.

(** C8, the claim as the specification words it: the request frame put
    on the wire is [{kind: "req", id, method, params}]. *)
Definition sends_kind_frame (w : World) (method : string) (params : jsval)
    (rnd : string) : Prop :=
  ∀ p w', request method params rnd w = (Awaits p, w') →
    ∃ s id, last (trace w')
            = Some (SockSend s (JObj [("kind", JStr "req"); ("id", JStr id);
                                      ("method", JStr method);
                                      ("params", default (JObj []) params)])).

(** ** Sessions and frames used as examples *)

(** The world after [connect()] and the opening of its socket: the
    handshake request is outstanding under the id ["i"]. *)
Definition handshake_sent : World :=
  run (init "ws://127.0.0.1:18789/" "secret") [CallConnect; EvOpen 0 "0.i"].

(** The handshake is outstanding and the socket has just been reported
    closed: the reconnect timer 1 is armed. *)
Definition closed_once : World := step handshake_sent (EvClose 0 true).

(** Two requests of the chat panel on an authenticated connection. *)
Definition two_outstanding : World :=
  run handshake_sent
      [EvMessage 0 (Some (JObj [("type", JStr "res"); ("id", JStr "i");
                                ("ok", JBool true)]));
       CallRequest "chat.send" (Some (JObj [("text", JStr "A")])) "0.a";
       CallRequest "chat.send" (Some (JObj [("text", JStr "B")])) "0.b"].

Definition reply_a : json :=
  JObj [("type", JStr "res"); ("id", JStr "a"); ("ok", JBool true);
        ("payload", JStr "for A")].

Definition reply_b : json :=
  JObj [("type", JStr "res"); ("id", JStr "b"); ("ok", JBool false);
        ("error", JObj [("code", JStr "E"); ("message", JStr "for B")])].

Definition stray_response : json :=
  JObj [("type", JStr "res"); ("id", JStr "zz"); ("ok", JBool true);
        ("payload", JStr "late")].

Definition stream_delta (d : string) : json :=
  JObj [("type", JStr "event"); ("event", JStr "chat.stream");
        ("payload", JObj [("delta", JStr d)])].

Definition kind_event : json :=
  JObj [("kind", JStr "event"); ("event", JStr "chat.stream");
        ("payload", JObj [("delta", JStr "a")])].

(** A gateway that refuses the handshake. *)
Definition handshake_refused : json :=
  JObj [("type", JStr "res"); ("id", JStr "i"); ("ok", JBool false);
        ("error", JObj [("code", JStr "UNAUTHORIZED");
                        ("message", JStr "bad token")])].

(** A response that says neither [ok] nor not. *)
Definition reply_without_ok : json :=
  JObj [("type", JStr "res"); ("id", JStr "a"); ("payload", JStr "for A")].

(** ** More readings of a trace *)

(** The frames a trace puts on the wire, the sockets it creates and the
    reports it makes to the status observer. *)
Definition sent (tr : list effect) : list (nat * json) :=
  omap (λ e, match e with SockSend s f => Some (s, f) | _ => None end) tr.

Definition created (tr : list effect) : list (nat * string) :=
  omap (λ e, match e with SockNew s u => Some (s, u) | _ => None end) tr.

Definition statuses (tr : list effect) : list bool :=
  omap (λ e, match e with StatusChange b => Some b | _ => None end) tr.

(** The timeout [h] is a reconnect attempt: when it fires, the client
    forgets the timer and runs [connect()] once, which creates one
    socket for the client's url and makes it current. *)
Definition fires_one_reconnect (w : World) (h : nat) : Prop :=
  let w' := step w (EvTimeout h) in
  sockets w' = sockets w ++ [CONNECTING] ∧
  ws (client w') = Some (length (sockets w)) ∧
  created (trace w') = created (trace w) ++ [(length (sockets w), url (client w))] ∧
  reconnectTimer (client w') = None ∧
  timers w' = ∅.

(** The user interface has called [connect] twice more; the first
    socket has then closed and armed the reconnect timer 1, while the
    two later sockets are still live. *)
Definition armed_with_live_sockets : World :=
  run handshake_sent [CallConnect; CallConnect; EvClose 0 false].

(** The handshake frame that [authenticate] has [request] send. *)
Definition handshake_frame (tok rnd : string) : json :=
  JObj [("type", JStr "req"); ("id", JStr (substring_from 2 rnd));
        ("method", JStr "connect"); ("params", handshake_params tok)].

(** What [authenticate] writes to the console when its request settles. *)
Definition handshake_report (r : settled) : effect :=
  match r with
  | Fulfilled _ => ConsoleLog ["Authenticated with gateway"]
  | Rejected e => ConsoleError "Authentication failed:" (JsValue e)
  end.

(** What [onmessage] owes the caller for a response, [ok] being any
    value. *)
Definition outcome (frame : json) : settled :=
  if truthy (get_field frame "ok")
  then Fulfilled (get_field frame "payload")
  else Rejected (get_field frame "error").

(** One round of the reconnect loop as the host drives it: the current
    socket is reported closed, then the timeout armed by that close
    fires. *)
Definition reconnect_cycle (failed : bool) (w : World) : World :=
  match ws (client w) with
  | Some s => step (step w (EvClose s failed)) (EvTimeout (S (timer_seq w)))
  | None => w
  end.

(** ** State updates of the user interface around the client *)

(** [prev.slice(-n)]: the last [n] elements, all of them when there are
    fewer. *)
Definition slice_last {A} (n : nat) (prev : list A) : list A :=
  drop (length prev - n) prev.

(** The update of the log buffer on a ["log-event"]:
    [(prev) => [...prev.slice(-500), event.payload]]. *)
Definition push_log {A} (payload : A) (prev : list A) : list A :=
  slice_last 500 prev ++ [payload].

(** The buffer after a series of log events, oldest first. *)
Definition log_events {A} (payloads : list A) (prev : list A) : list A :=
  foldl (λ acc payload, push_log payload acc) prev payloads.

(** [l.filter((x, i) => f(x, i))], the callback seeing each element with
    its index. *)
Fixpoint filter_from {A} (f : A → nat → bool) (i : nat) (l : list A) : list A :=
  match l with
  | [] => []
  | x :: l' => if f x i then x :: filter_from f (S i) l' else filter_from f (S i) l'
  end.

(** The update made by [removeAttachment(index)] of the chat panel:
    [prev => prev.filter((_, i) => i !== index)]. *)
Definition removeAttachment (index : nat) (prev : list string) : list string :=
  filter_from (λ _ i, negb (i =? index)) 0 prev.

(** The update made by [toggleSkill(id)] of the onboarding wizard:
    [prev.includes(id) ? prev.filter(s => s !== id) : [...prev, id]]. *)
Definition toggleSkill (id : string) (prev : list string) : list string :=
  if bool_decide (id ∈ prev)
  then filter (λ s, s ≠ id) prev
  else prev ++ [id].

(** * Properties *)

(** ** Reachable worlds are well formed *)

Lemma reachable_run u t w l : reachable u t w → reachable u t (run w l).
Proof.
  intros Hw. unfold run. induction l as [|i l IH] using rev_ind; simpl.
  - done.
  - rewrite foldl_app. simpl. by constructor.
Qed.

Lemma wf_init u t : wf (init u t).
Proof. split; simpl; try done. Qed.

Lemma wf_emit e w : wf w → wf (emit e w).
Proof. intros [H1 H2 H3 H4 H5]. by split. Qed.

Lemma wf_set_handshakes h w : wf w → wf (set_handshakes h w).
Proof. intros [H1 H2 H3 H4 H5]. by split. Qed.

Lemma wf_set_sockets_insert s st w :
  wf w → wf (set_sockets (<[s := st]> (sockets w)) w).
Proof.
  intros [H1 H2 H3 H4 H5]. split; simpl; try done.
  intros s' Hs'. rewrite length_insert. auto.
Qed.

Lemma wf_sock_close s w : wf w → wf (sock_close s w).
Proof.
  intros Hw. unfold sock_close.
  destruct (sockets w !! s) as [[]|]; try done;
    by apply wf_emit, wf_set_sockets_insert.
Qed.

Lemma wf_close_current w : wf w → wf (close_current w).
Proof.
  intros Hw. unfold close_current.
  destruct (ws (client w)); [by apply wf_sock_close | done].
Qed.

Lemma wf_connect w : wf w → wf (connect w).
Proof.
  intros [H1 H2 H3 H4 H5]. split; simpl; try done.
  intros s [= <-]. rewrite length_app. simpl. lia.
Qed.

Lemma timer_set_wf w :
  wf w → timer_set (reconnectTimer (client w)) = false →
  reconnectTimer (client w) = None.
Proof.
  intros Hw. destruct (reconnectTimer (client w)) as [h|] eqn:E; [|done].
  simpl. pose proof (wf_handle w Hw h E). destruct h; [lia | done].
Qed.

Lemma timer_set_Some w h :
  wf w → reconnectTimer (client w) = Some h →
  timer_set (reconnectTimer (client w)) = true.
Proof.
  intros Hw E. rewrite E. simpl. pose proof (wf_handle w Hw h E).
  destruct h; [lia | done].
Qed.

Lemma wf_scheduleReconnect w : wf w → wf (scheduleReconnect w).
Proof.
  intros Hw. unfold scheduleReconnect.
  destruct (timer_set (reconnectTimer (client w))) eqn:E; [done|].
  apply timer_set_wf in E; [|done].
  destruct Hw as [H1 H2 H3 H4 H5]. rewrite E in H4.
  split; simpl; try done.
  - by rewrite H4, (right_id_L ∅ (∪)).
  - intros h [= <-]. lia.
Qed.

Lemma wf_request m ps rnd w : wf w → wf (snd (request m ps rnd w)).
Proof.
  intros Hw. unfold request.
  destruct (ws (client w)) as [s|] eqn:Es; [|done].
  case_decide; [|done]. destruct Hw as [H1 H2 H3 H4 H5].
  split; simpl; try done.
  - intros id p. rewrite lookup_insert. case_decide.
    + intros [= <-]. by rewrite lookup_app_r, Nat.sub_diag.
    + intros Hp. apply H2 in Hp. by rewrite lookup_app_l by (by eapply lookup_lt_Some).
  - intros id1 id2 p. rewrite !lookup_insert.
    repeat case_decide; subst; try done.
    + intros [= <-] Hp. apply H2, lookup_lt_Some in Hp. lia.
    + intros Hp [= <-]. apply H2, lookup_lt_Some in Hp. lia.
    + apply H3.
Qed.

Lemma wf_authenticate rnd w : wf w → wf (authenticate rnd w).
Proof.
  intros Hw. unfold authenticate.
  pose proof (wf_request "connect" (Some (handshake_params (token (client w)))) rnd w Hw) as H.
  destruct (request _ _ _ _) as [[msg|p] w1]; simpl in H.
  - by apply wf_emit.
  - by apply wf_set_handshakes.
Qed.

Lemma wf_settle p r w :
  wf w → (∀ id, pending (client w) !! id ≠ Some p) → wf (settle p r w).
Proof.
  intros Hw Hp. unfold settle.
  destruct (promises w !! p) as [[|r']|] eqn:E; try done.
  assert (wf (emit (Settle p r) (set_promises (<[p:=Done r]> (promises w)) w))) as Hw1.
  { destruct Hw as [H1 H2 H3 H4 H5]. split; simpl; try done.
    intros id q Hq. rewrite list_lookup_insert_ne; [by eapply H2|].
    intros <-. by eapply Hp. }
  case_decide; [|done].
  destruct r; by apply wf_emit, wf_set_handshakes.
Qed.

Lemma wf_onmessage data w : wf w → wf (onmessage data w).
Proof.
  intros Hw. unfold onmessage.
  destruct data as [frame|]; [|by apply wf_emit].
  assert (wf (if strict_eq_str (get_field frame "type") "res" then
        match pending_get (get_field frame "id") w with
        | Some (id, p) =>
            let w1 := with_client (set_pending (delete id (pending (client w)))) w in
            if truthy (get_field frame "ok")
            then settle p (Fulfilled (get_field frame "payload")) w1
            else settle p (Rejected (get_field frame "error")) w1
        | None => w
        end
      else if strict_eq_str (get_field frame "type") "event" then
        emit (OnEvent (get_field frame "event") (get_field frame "payload")) w
      else w)) as H.
  { destruct (strict_eq_str (get_field frame "type") "res").
    - destruct (pending_get _ w) as [[id p]|] eqn:E; [|done].
      unfold pending_get in E.
      destruct (get_field frame "id") as [[| | |id'| |]|]; try done.
      destruct (pending (client w) !! id') as [p'|] eqn:E'; [|done].
      simpl in E. injection E as <- <-.
      assert (wf (with_client (set_pending (delete id' (pending (client w)))) w)) as Hw1.
      { destruct Hw as [H1 H2 H3 H4 H5]. split; simpl; try done.
        - intros id q Hq. apply lookup_delete_Some in Hq as [_ Hq]. by eapply H2.
        - intros id1 id2 q Hq1 Hq2.
          apply lookup_delete_Some in Hq1 as [_ Hq1].
          apply lookup_delete_Some in Hq2 as [_ Hq2]. by eapply H3. }
      assert (∀ id, pending (client (with_client
                (set_pending (delete id' (pending (client w)))) w)) !! id ≠ Some p') as Hfree.
      { simpl. intros id Hq. apply lookup_delete_Some in Hq as [Hne Hq].
        apply Hne. by eapply (wf_inj w Hw). }
      simpl. destruct (truthy _); by apply wf_settle.
    - destruct (strict_eq_str _ "event"); [by apply wf_emit | done]. }
  destruct frame; try done. by apply wf_emit.
Qed.

Lemma wf_onclose w : wf w → wf (onclose w).
Proof. intros Hw. by apply wf_scheduleReconnect, wf_emit. Qed.

Lemma wf_step w i : wf w → wf (step w i).
Proof.
  intros Hw. destruct i as [| |m ps rnd|s rnd|s data|s failed|h]; simpl.
  - by apply wf_connect.
  - by apply wf_close_current.
  - by apply wf_request.
  - destruct (sockets w !! s) as [[]|]; try done.
    by apply wf_authenticate, wf_emit, wf_set_sockets_insert.
  - destruct (sockets w !! s) as [[]|]; try done. by apply wf_onmessage.
  - assert (wf (onclose (if failed
        then onerror (set_sockets (<[s:=CLOSED]> (sockets w)) w)
        else set_sockets (<[s:=CLOSED]> (sockets w)) w))) as H.
    { apply wf_onclose. destruct failed; [apply wf_close_current|];
        by apply wf_set_sockets_insert. }
    destruct (sockets w !! s) as [[]|]; done.
  - case_decide as Hh; [|done]. apply wf_connect.
    destruct Hw as [H1 H2 H3 H4 H5]. split; simpl; try done.
    rewrite H4 in Hh |- *. destruct (reconnectTimer (client w)) as [h0|].
    + apply elem_of_singleton in Hh as ->. apply difference_diag_L.
    + by apply not_elem_of_empty in Hh.
Qed.

Lemma reachable_wf u t w : reachable u t w → wf w.
Proof. induction 1; [apply wf_init | by apply wf_step]. Qed.

Lemma settlements_app tr1 tr2 :
  settlements (tr1 ++ tr2) = settlements tr1 ++ settlements tr2.
Proof. apply omap_app. Qed.

Lemma scheduled_app tr1 tr2 :
  scheduled (tr1 ++ tr2) = scheduled tr1 ++ scheduled tr2.
Proof. apply omap_app. Qed.

(** ** What the close callback leaves alone *)

Lemma sock_close_client s w : client (sock_close s w) = client w.
Proof. unfold sock_close. by destruct (sockets w !! s) as [[]|]. Qed.

Lemma sock_close_promises s w : promises (sock_close s w) = promises w.
Proof. unfold sock_close. by destruct (sockets w !! s) as [[]|]. Qed.

Lemma sock_close_timers s w :
  timers (sock_close s w) = timers w ∧ timer_seq (sock_close s w) = timer_seq w.
Proof. unfold sock_close. by destruct (sockets w !! s) as [[]|]. Qed.

Lemma sock_close_settlements s w :
  settlements (trace (sock_close s w)) = settlements (trace w).
Proof.
  unfold sock_close. destruct (sockets w !! s) as [[]|]; simpl; try done;
    by rewrite settlements_app, app_nil_r.
Qed.

Lemma sock_close_scheduled s w :
  scheduled (trace (sock_close s w)) = scheduled (trace w).
Proof.
  unfold sock_close. destruct (sockets w !! s) as [[]|]; simpl; try done;
    by rewrite scheduled_app, app_nil_r.
Qed.

Lemma close_current_client w : client (close_current w) = client w.
Proof. unfold close_current. destruct (ws (client w)); [apply sock_close_client | done]. Qed.

Lemma close_current_promises w : promises (close_current w) = promises w.
Proof. unfold close_current. destruct (ws (client w)); [apply sock_close_promises | done]. Qed.

Lemma close_current_timers w :
  timers (close_current w) = timers w ∧ timer_seq (close_current w) = timer_seq w.
Proof. unfold close_current. destruct (ws (client w)); [apply sock_close_timers | done]. Qed.

Lemma close_current_settlements w :
  settlements (trace (close_current w)) = settlements (trace w).
Proof.
  unfold close_current. destruct (ws (client w)); [apply sock_close_settlements | done].
Qed.

Lemma close_current_scheduled w :
  scheduled (trace (close_current w)) = scheduled (trace w).
Proof.
  unfold close_current. destruct (ws (client w)); [apply sock_close_scheduled | done].
Qed.

Lemma scheduleReconnect_pending w :
  pending (client (scheduleReconnect w)) = pending (client w) ∧
  promises (scheduleReconnect w) = promises w ∧
  settlements (trace (scheduleReconnect w)) = settlements (trace w).
Proof.
  unfold scheduleReconnect.
  destruct (timer_set (reconnectTimer (client w))); simpl; [done|].
  by rewrite settlements_app, app_nil_r.
Qed.

Lemma onclose_pending w :
  pending (client (onclose w)) = pending (client w) ∧
  promises (onclose w) = promises w ∧
  settlements (trace (onclose w)) = settlements (trace w).
Proof.
  unfold onclose.
  destruct (scheduleReconnect_pending (emit (StatusChange false) w)) as (-> & -> & ->).
  simpl. by rewrite settlements_app, app_nil_r.
Qed.

(** C1, counterexample: the socket closes while the handshake request is
    outstanding; its entry stays in the table and its promise keeps
    waiting. *)
Lemma close_does_not_drain :
  sockets handshake_sent !! 0 = Some OPEN ∧
  pending (client handshake_sent) !! "i" = Some 0 ∧
  pending (client (step handshake_sent (EvClose 0 false))) !! "i" = Some 0 ∧
  promises (step handshake_sent (EvClose 0 false)) !! 0 = Some Waiting ∧
  ¬ close_drains handshake_sent 0 false.
Proof.
  repeat split; try (vm_compute; reflexivity).
  intros [Hempty _].
  assert (pending (client (step handshake_sent (EvClose 0 false))) !! "i" = Some 0)
    as Hi by (vm_compute; reflexivity).
  rewrite Hempty in Hi. by rewrite lookup_empty in Hi.
Qed.

(** C1, as amended: when the transport closes, nothing is rejected or
    resolved; the pending-request table, and every promise in it, are
    exactly what they were before the close. *)
Theorem close_keeps_pending w s failed :
  let w' := step w (EvClose s failed) in
  pending (client w') = pending (client w) ∧
  promises w' = promises w ∧
  settlements (trace w') = settlements (trace w).
Proof.
  simpl.
  assert (∀ w1, client w1 = client w → promises w1 = promises w →
                settlements (trace w1) = settlements (trace w) →
                pending (client (onclose w1)) = pending (client w) ∧
                promises (onclose w1) = promises w ∧
                settlements (trace (onclose w1)) = settlements (trace w)) as H.
  { intros w1 Hc Hp Ht. destruct (onclose_pending w1) as (-> & -> & ->).
    by rewrite Hc, Hp, Ht. }
  destruct (sockets w !! s) as [[]|]; try done;
    (destruct failed; [|by apply H]); apply H; unfold onerror;
    by rewrite ?close_current_client, ?close_current_promises,
               ?close_current_settlements.
Qed.

(** ** Requests *)

(** C4: a call of [request] while the transport is not open fails at
    once with the not-connected error and changes nothing: the world,
    with its table, its sockets and its trace, is the one before. *)
Theorem request_not_connected w method params rnd :
  (∀ s, ws (client w) = Some s → sockets w !! s ≠ Some OPEN) →
  request method params rnd w = (Throws "Not connected to gateway", w).
Proof.
  intros Hclosed. unfold request.
  destruct (ws (client w)) as [s|]; [|done].
  case_decide as Hopen; [|done]. by destruct (Hclosed s).
Qed.

Lemma request_not_connected_witness :
  (∀ s, ws (client (init "ws://127.0.0.1:18789/" "secret")) = Some s →
        sockets (init "ws://127.0.0.1:18789/" "secret") !! s ≠ Some OPEN) ∧
  request "chat.send" None "0.i" (init "ws://127.0.0.1:18789/" "secret")
  = (Throws "Not connected to gateway", init "ws://127.0.0.1:18789/" "secret").
Proof.
  assert (∀ s, ws (client (init "ws://127.0.0.1:18789/" "secret")) = Some s →
        sockets (init "ws://127.0.0.1:18789/" "secret") !! s ≠ Some OPEN) as H
    by (simpl; discriminate).
  split; [exact H | exact (request_not_connected _ "chat.send" None "0.i" H)].
Defined.

(** ** Inbound frames *)

Lemma onmessage_unmatched w frame :
  is_response frame →
  (∀ id, get_field frame "id" = Some (JStr id) → pending (client w) !! id = None) →
  onmessage (Some frame) w = w.
Proof.
  unfold is_response, onmessage. intros Ht Hid.
  assert (pending_get (get_field frame "id") w = None) as Hget.
  { unfold pending_get.
    destruct (get_field frame "id") as [[| | |id| |]|]; try done.
    by rewrite (Hid id eq_refl). }
  destruct frame; try done. by rewrite Ht, Hget.
Qed.

(** C5: a response frame whose id has no entry in the pending table is
    dropped: handling it leaves the world as it was, so nothing is thrown,
    no promise is settled, the table is unchanged and the event handler is
    not called. *)
Theorem unmatched_response_ignored w s frame :
  is_response frame →
  (∀ id, get_field frame "id" = Some (JStr id) → pending (client w) !! id = None) →
  step w (EvMessage s (Some frame)) = w.
Proof.
  intros Ht Hid. simpl.
  destruct (sockets w !! s) as [[]|]; try done. by apply onmessage_unmatched.
Qed.

Lemma unmatched_response_ignored_witness :
  is_response stray_response ∧
  (∀ id, get_field stray_response "id" = Some (JStr id) →
         pending (client handshake_sent) !! id = None) ∧
  step handshake_sent (EvMessage 0 (Some stray_response)) = handshake_sent.
Proof.
  assert (is_response stray_response) as H1 by reflexivity.
  assert (∀ id, get_field stray_response "id" = Some (JStr id) →
                pending (client handshake_sent) !! id = None) as H2.
  { intros id [= <-]. vm_compute. reflexivity. }
  exact (conj H1 (conj H2 (unmatched_response_ignored handshake_sent 0 _ H1 H2))).
Defined.

Lemma onmessage_event w frame :
  is_event frame →
  onmessage (Some frame) w
  = emit (OnEvent (get_field frame "event") (get_field frame "payload")) w.
Proof.
  unfold is_event, onmessage. intros Ht.
  destruct frame; try done. by rewrite Ht.
Qed.

(** C9: event frames arriving on the open transport are handed to the
    event handler one call per frame, in arrival order, each with the
    frame's own event name and payload, whatever the pending table holds;
    nothing else changes. *)
Theorem events_delivered_in_order w s frames :
  sockets w !! s = Some OPEN →
  Forall is_event frames →
  run w (deliver s frames)
  = mkWorld (client w) (sockets w) (timers w) (timer_seq w) (promises w)
            (handshakes w) (trace w ++ handler_calls frames).
Proof.
  intros Hopen Hev. revert w Hopen.
  induction Hev as [|f frames Hf Hfs IH]; intros w Hopen.
  - simpl. rewrite app_nil_r. by destruct w.
  - change (run w (deliver s (f :: frames)))
      with (run (step w (EvMessage s (Some f))) (deliver s frames)).
    assert (step w (EvMessage s (Some f))
            = emit (OnEvent (get_field f "event") (get_field f "payload")) w) as ->.
    { cbn [step]. rewrite Hopen. by apply onmessage_event. }
    rewrite IH by done. simpl. by rewrite <- app_assoc.
Qed.

Lemma events_delivered_in_order_witness :
  sockets handshake_sent !! 0 = Some OPEN ∧
  Forall is_event [stream_delta "a"; stream_delta "b"] ∧
  trace (run handshake_sent (deliver 0 [stream_delta "a"; stream_delta "b"]))
  = trace handshake_sent ++
    [OnEvent (Some (JStr "chat.stream")) (Some (JObj [("delta", JStr "a")]));
     OnEvent (Some (JStr "chat.stream")) (Some (JObj [("delta", JStr "b")]))].
Proof.
  assert (sockets handshake_sent !! 0 = Some OPEN) as H1 by reflexivity.
  assert (Forall is_event [stream_delta "a"; stream_delta "b"]) as H2
    by (repeat constructor).
  split; [exact H1 | split; [exact H2 |]].
  rewrite (events_delivered_in_order handshake_sent 0 _ H1 H2). reflexivity.
Defined.

(** ** Responses *)

Lemma settle_waiting p r w :
  promises w !! p = Some Waiting →
  promises (settle p r w) = <[p := Done r]> (promises w) ∧
  client (settle p r w) = client w ∧
  sockets (settle p r w) = sockets w ∧
  settlements (trace (settle p r w)) = settlements (trace w) ++ [(p, r)].
Proof.
  intros Hp. unfold settle. rewrite Hp.
  case_decide; [destruct r|]; simpl;
    rewrite ?settlements_app; simpl; by rewrite ?app_nil_r.
Qed.

Lemma onmessage_response w id p frame :
  pending (client w) !! id = Some p → response_for id frame →
  onmessage (Some frame) w
  = settle p (answer frame)
           (with_client (set_pending (delete id (pending (client w)))) w).
Proof.
  unfold response_for, is_response, onmessage, answer.
  intros Hp (Ht & Hid & b & Hok).
  assert (pending_get (get_field frame "id") w = Some (id, p)) as Hget.
  { unfold pending_get. by rewrite Hid, Hp. }
  destruct frame; try done. rewrite Ht, Hget, Hok. by destruct b.
Qed.

Lemma response_settles w s id p frame :
  wf w → sockets w !! s = Some OPEN →
  pending (client w) !! id = Some p → response_for id frame →
  promises (step w (EvMessage s (Some frame))) = <[p := Done (answer frame)]> (promises w) ∧
  pending (client (step w (EvMessage s (Some frame)))) = delete id (pending (client w)) ∧
  sockets (step w (EvMessage s (Some frame))) = sockets w ∧
  settlements (trace (step w (EvMessage s (Some frame))))
  = settlements (trace w) ++ [(p, answer frame)].
Proof.
  intros Hw Hs Hp Hf. cbn [step]. rewrite Hs.
  rewrite (onmessage_response w id p frame Hp Hf).
  destruct (settle_waiting p (answer frame)
              (with_client (set_pending (delete id (pending (client w)))) w))
    as (-> & -> & -> & ->); [|done].
  simpl. by eapply wf_waiting.
Qed.

Lemma two_responses w s ida idb pa pb fa fb :
  wf w → sockets w !! s = Some OPEN → ida ≠ idb →
  pending (client w) !! ida = Some pa → pending (client w) !! idb = Some pb →
  response_for ida fa → response_for idb fb →
  promises (run w (deliver s [fa; fb])) !! pa = Some (Done (answer fa)) ∧
  promises (run w (deliver s [fa; fb])) !! pb = Some (Done (answer fb)).
Proof.
  intros Hw Hs Hne Ha Hb Hfa Hfb.
  change (run w (deliver s [fa; fb]))
    with (step (step w (EvMessage s (Some fa))) (EvMessage s (Some fb))).
  destruct (response_settles w s ida pa fa Hw Hs Ha Hfa) as (Hp1 & Hm1 & Hs1 & _).
  assert (pa ≠ pb) as Hpne.
  { intros ->. by apply Hne, (wf_inj w Hw ida idb pb). }
  pose proof (lookup_lt_Some _ _ _ (wf_waiting w Hw ida pa Ha)) as Hla.
  pose proof (lookup_lt_Some _ _ _ (wf_waiting w Hw idb pb Hb)) as Hlb.
  destruct (response_settles (step w (EvMessage s (Some fa))) s idb pb fb)
    as (Hp2 & _); [by apply wf_step | by rewrite Hs1 | | done |].
  { rewrite Hm1. by rewrite lookup_delete_ne. }
  rewrite Hp2, Hp1. split.
  - rewrite list_lookup_insert_ne by done. by apply list_lookup_insert_eq.
  - apply list_lookup_insert_eq. by rewrite length_insert.
Qed.

(** C3: on an open transport a response frame settles the request whose
    id it carries, and no other: with [ok = true] the caller is resolved
    with the payload, with [ok = false] it is rejected with the error of
    the frame; two outstanding requests with distinct ids each get the
    answer of their own response, whichever response arrives first. *)
Theorem responses_settle_their_own_request u t w :
  reachable u t w →
  (∀ s id p frame,
     sockets w !! s = Some OPEN → pending (client w) !! id = Some p →
     response_for id frame →
     let w' := step w (EvMessage s (Some frame)) in
     promises w' !! p = Some (Done (answer frame)) ∧
     settlements (trace w') = settlements (trace w) ++ [(p, answer frame)] ∧
     pending (client w') = delete id (pending (client w))) ∧
  (∀ s ida idb pa pb fa fb,
     sockets w !! s = Some OPEN → ida ≠ idb →
     pending (client w) !! ida = Some pa → pending (client w) !! idb = Some pb →
     response_for ida fa → response_for idb fb →
     (promises (run w (deliver s [fa; fb])) !! pa = Some (Done (answer fa)) ∧
      promises (run w (deliver s [fa; fb])) !! pb = Some (Done (answer fb))) ∧
     (promises (run w (deliver s [fb; fa])) !! pa = Some (Done (answer fa)) ∧
      promises (run w (deliver s [fb; fa])) !! pb = Some (Done (answer fb)))).
Proof.
  intros Hw%reachable_wf. split.
  - intros s id p frame Hs Hp Hf. cbv zeta.
    destruct (response_settles w s id p frame Hw Hs Hp Hf) as (-> & -> & _ & ->).
    repeat split. apply list_lookup_insert_eq.
    by eapply lookup_lt_Some, wf_waiting.
  - intros s ida idb pa pb fa fb Hs Hne Ha Hb Hfa Hfb. split.
    + by eapply two_responses.
    + by apply and_comm, (two_responses w s idb ida).
Qed.

Lemma responses_settle_their_own_request_witness :
  reachable "ws://127.0.0.1:18789/" "secret" two_outstanding ∧
  promises (step two_outstanding (EvMessage 0 (Some reply_b))) !! 2
  = Some (Done (Rejected (Some (JObj [("code", JStr "E"); ("message", JStr "for B")])))) ∧
  promises (run two_outstanding (deliver 0 [reply_b; reply_a])) !! 1
  = Some (Done (Fulfilled (Some (JStr "for A")))) ∧
  promises (run two_outstanding (deliver 0 [reply_b; reply_a])) !! 2
  = Some (Done (Rejected (Some (JObj [("code", JStr "E"); ("message", JStr "for B")])))).
Proof.
  assert (reachable "ws://127.0.0.1:18789/" "secret" two_outstanding) as Hr
    by apply reachable_run, reachable_run, reachable_init.
  assert (response_for "a" reply_a) as Ha by (repeat split; by exists true).
  assert (response_for "b" reply_b) as Hb by (repeat split; by exists false).
  assert (sockets two_outstanding !! 0 = Some OPEN) as Hs by reflexivity.
  assert (pending (client two_outstanding) !! "a" = Some 1) as Hpa
    by (vm_compute; reflexivity).
  assert (pending (client two_outstanding) !! "b" = Some 2) as Hpb
    by (vm_compute; reflexivity).
  assert ("a" ≠ "b") as Hne by discriminate.
  destruct (responses_settle_their_own_request _ _ _ Hr) as [Hone Htwo].
  split; [exact Hr | split].
  - exact (proj1 (Hone 0 "b" 2 reply_b Hs Hpb Hb)).
  - exact (proj2 (Htwo 0 "a" "b" 1 2 reply_a reply_b Hs Hne Hpa Hpb Ha Hb)).
Defined.

(** C7, counterexample: [Math.random()] draws 0.5 (["0.i"] in base 36)
    for the handshake and again for the next request; the second entry
    takes the place of the first, whose promise is left waiting outside
    the table. *)
Lemma request_id_can_collide :
  pending (client handshake_sent) !! "i" = Some 0 ∧
  fst (request "chat.send" None "0.i" handshake_sent) = Awaits 1 ∧
  pending (client (snd (request "chat.send" None "0.i" handshake_sent))) !! "i" = Some 1 ∧
  ¬ request_is_fresh handshake_sent "chat.send" None "0.i".
Proof.
  repeat split; try (vm_compute; reflexivity).
  intros Hfresh.
  destruct (Hfresh 1 (snd (request "chat.send" None "0.i" handshake_sent)))
    as [Hnone _]; [reflexivity|].
  vm_compute in Hnone. discriminate.
Qed.

(** C7, as amended: the table is a map, so an id has at most one entry.
    [request] takes its id from the random draw ([Math.random()] in base
    36 without its first two characters) and never looks the id up: the
    new promise is recorded under it and the entries under other ids are
    kept; when the id was free nothing is displaced, and when it was
    taken the earlier entry is replaced and its promise is no longer in
    the table. *)
Theorem request_records u t w method params rnd p w' :
  reachable u t w →
  request method params rnd w = (Awaits p, w') →
  pending (client w') = <[substring_from 2 rnd := p]> (pending (client w)) ∧
  p = length (promises w) ∧
  promises w' = promises w ++ [Waiting] ∧
  (∀ id, id ≠ substring_from 2 rnd →
         pending (client w') !! id = pending (client w) !! id) ∧
  (pending (client w) !! substring_from 2 rnd = None →
   ∀ id q, pending (client w) !! id = Some q → pending (client w') !! id = Some q) ∧
  (∀ q, pending (client w) !! substring_from 2 rnd = Some q →
        ∀ id, pending (client w') !! id ≠ Some q).
Proof.
  intros Hw%reachable_wf. unfold request.
  destruct (ws (client w)) as [s|]; [|done].
  case_decide; [|done]. intros [= <- <-]. simpl.
  repeat split.
  - intros id Hne. by rewrite lookup_insert_ne.
  - intros Hfree id q Hq. rewrite lookup_insert_ne; [done|].
    intros <-. by rewrite Hfree in Hq.
  - intros q Hq id. rewrite lookup_insert. case_decide as Hid.
    + intros [= Hlen]. apply (wf_waiting w Hw), lookup_lt_Some in Hq. lia.
    + intros Hq'. apply Hid. by apply (wf_inj w Hw _ _ q).
Qed.

Lemma request_records_witness :
  reachable "ws://127.0.0.1:18789/" "secret" handshake_sent ∧
  pending (client (snd (request "chat.send" None "0.a" handshake_sent))) !! "i" = Some 0 ∧
  pending (client (snd (request "chat.send" None "0.a" handshake_sent))) !! "a" = Some 1.
Proof.
  assert (reachable "ws://127.0.0.1:18789/" "secret" handshake_sent) as Hr
    by apply reachable_run, reachable_init.
  destruct (request_records _ _ handshake_sent "chat.send" None "0.a" 1
              (snd (request "chat.send" None "0.a" handshake_sent)) Hr eq_refl)
    as (Hm & _ & _ & Hother & _).
  split; [exact Hr | split].
  - rewrite Hother by discriminate. vm_compute. reflexivity.
  - rewrite Hm. apply lookup_insert_eq.
Defined.

(** ** The shape of frames *)

(** C8, counterexample: the frame that [request] sends has a member
    [type] and no member [kind], and an inbound frame that carries its
    discriminator under [kind] is not accepted: the event handler is
    not called. *)
Lemma frames_do_not_use_kind :
  last (trace (snd (request "chat.send" None "0.a" handshake_sent)))
  = Some (SockSend 0 (JObj [("type", JStr "req"); ("id", JStr "a");
                            ("method", JStr "chat.send"); ("params", JObj [])])) ∧
  ¬ sends_kind_frame handshake_sent "chat.send" None "0.a" ∧
  step handshake_sent (EvMessage 0 (Some kind_event)) = handshake_sent.
Proof.
  split; [vm_compute; reflexivity | split; [|reflexivity]].
  intros Hkind.
  destruct (Hkind 1 (snd (request "chat.send" None "0.a" handshake_sent)) eq_refl)
    as (s & id & Hlast).
  vm_compute in Hlast. discriminate.
Qed.

(** C8, as amended: the discriminator member is named [type].  A request
    frame sent by [request] is exactly
    [{type: "req", id, method, params}]; an inbound frame is acted upon
    only if its [type] is ["res"] or ["event"], any other frame is
    ignored. *)
Theorem frames_use_type (w : World) :
  (∀ method params rnd p w',
     request method params rnd w = (Awaits p, w') →
     ∃ s, ws (client w) = Some s ∧
          trace w' = trace w ++
            [SockSend s (JObj [("type", JStr "req");
                               ("id", JStr (substring_from 2 rnd));
                               ("method", JStr method);
                               ("params", default (JObj []) params)])]) ∧
  (∀ frame, frame ≠ JNull → ¬ is_response frame → ¬ is_event frame →
            onmessage (Some frame) w = w).
Proof.
  split.
  - intros method params rnd p w'. unfold request.
    destruct (ws (client w)) as [s|]; [|done].
    case_decide; [|done]. intros [= <- <-]. by exists s.
  - unfold is_response, is_event, onmessage. intros frame Hnull Hres Hev.
    assert (∀ lit, get_field frame "type" ≠ Some (JStr lit) →
                   strict_eq_str (get_field frame "type") lit = false) as Hlit.
    { intros lit Hne. unfold strict_eq_str.
      destruct (get_field frame "type") as [[| | |ty| |]|]; try done.
      apply String.eqb_neq. congruence. }
    destruct frame; try done; by rewrite !Hlit.
Qed.

Lemma frames_use_type_witness :
  trace (snd (request "chat.send" (Some (JObj [("text", JStr "A")])) "0.a" handshake_sent))
  = trace handshake_sent ++
    [SockSend 0 (JObj [("type", JStr "req"); ("id", JStr "a");
                       ("method", JStr "chat.send");
                       ("params", JObj [("text", JStr "A")])])] ∧
  onmessage (Some kind_event) handshake_sent = handshake_sent.
Proof.
  destruct (frames_use_type handshake_sent) as [Hsent Hin]. split.
  - destruct (Hsent "chat.send" (Some (JObj [("text", JStr "A")])) "0.a" 1
                (snd (request "chat.send" (Some (JObj [("text", JStr "A")])) "0.a"
                              handshake_sent)) eq_refl) as (s & Hs & Htr).
    vm_compute in Hs. injection Hs as <-. exact Htr.
  - apply (Hin kind_event); [discriminate | vm_compute; discriminate
                            | vm_compute; discriminate].
Defined.

(** ** Reconnection *)

Lemma can_close_or_not w s : can_close w s ∨ ¬ can_close w s.
Proof.
  unfold can_close. destruct (sockets w !! s) as [st|].
  - destruct (decide (st = CLOSED)) as [->|Hst]; [right | left; by exists st].
    by intros (st & [= <-] & Hst).
  - right. by intros (st & Hs & _).
Qed.

Lemma step_close_enabled w s failed :
  can_close w s →
  step w (EvClose s failed)
  = onclose (if failed then onerror (set_sockets (<[s := CLOSED]> (sockets w)) w)
             else set_sockets (<[s := CLOSED]> (sockets w)) w).
Proof. intros (st & Hs & Hst). cbn [step]. rewrite Hs. by destruct st. Qed.

Lemma step_close_disabled w s failed :
  ¬ can_close w s → step w (EvClose s failed) = w.
Proof.
  intros Hno. cbn [step].
  destruct (sockets w !! s) as [[]|] eqn:Hs; try done;
    destruct Hno; eexists; (split; [done | discriminate]).
Qed.

Lemma onclose_unarmed w :
  reconnectTimer (client w) = None →
  reconnectTimer (client (onclose w)) = Some (S (timer_seq w)) ∧
  timers (onclose w) = {[S (timer_seq w)]} ∪ timers w ∧
  scheduled (trace (onclose w))
  = scheduled (trace w) ++ [(S (timer_seq w), reconnect_delay)].
Proof.
  intros Hnone. unfold onclose, scheduleReconnect. simpl. rewrite Hnone. simpl.
  rewrite !scheduled_app. simpl. by rewrite app_nil_r.
Qed.

Lemma onclose_armed w h :
  wf w → reconnectTimer (client w) = Some h →
  reconnectTimer (client (onclose w)) = Some h ∧
  timers (onclose w) = timers w ∧
  scheduled (trace (onclose w)) = scheduled (trace w).
Proof.
  intros Hw Hh. unfold onclose, scheduleReconnect. simpl.
  rewrite (timer_set_Some w h Hw Hh). simpl.
  by rewrite scheduled_app, app_nil_r.
Qed.

(** The world in which the close callback runs has the timers of the
    world in which the close was reported. *)
Lemma before_onclose (w : World) (s : nat) (failed : bool) :
  let w1 := if failed then onerror (set_sockets (<[s := CLOSED]> (sockets w)) w)
            else set_sockets (<[s := CLOSED]> (sockets w)) w in
  client w1 = client w ∧ timers w1 = timers w ∧ timer_seq w1 = timer_seq w ∧
  scheduled (trace w1) = scheduled (trace w) ∧ (wf w → wf w1).
Proof.
  destruct failed; simpl.
  - unfold onerror.
    rewrite close_current_client, close_current_scheduled.
    destruct (close_current_timers (set_sockets (<[s:=CLOSED]> (sockets w)) w))
      as [-> ->].
    do 4 (split; [done|]). intros Hw.
    by apply wf_close_current, wf_set_sockets_insert.
  - do 4 (split; [done|]). apply wf_set_sockets_insert.
Qed.

Lemma close_while_armed w s failed h :
  wf w → reconnectTimer (client w) = Some h →
  reconnectTimer (client (step w (EvClose s failed))) = Some h ∧
  timers (step w (EvClose s failed)) = timers w ∧
  scheduled (trace (step w (EvClose s failed))) = scheduled (trace w).
Proof.
  intros Hw Hh. destruct (can_close_or_not w s) as [Hs|Hs].
  - rewrite (step_close_enabled w s failed Hs).
    destruct (before_onclose w s failed) as (Hc & Ht & _ & Htr & Hwf).
    edestruct onclose_armed as (-> & -> & ->); [by apply Hwf | by rewrite Hc |].
    by rewrite Ht, Htr.
  - by rewrite (step_close_disabled w s failed Hs).
Qed.

Lemma closes_while_armed w (closes : list (nat * bool)) h :
  wf w → reconnectTimer (client w) = Some h →
  reconnectTimer (client (run w (close_signals closes))) = Some h ∧
  timers (run w (close_signals closes)) = timers w ∧
  scheduled (trace (run w (close_signals closes))) = scheduled (trace w).
Proof.
  revert w. induction closes as [|[s failed] closes IH]; intros w Hw Hh; [done|].
  change (run w (close_signals ((s, failed) :: closes)))
    with (run (step w (EvClose s failed)) (close_signals closes)).
  destruct (close_while_armed w s failed h Hw Hh) as (Hh' & Ht & Htr).
  destruct (IH (step w (EvClose s failed))) as (-> & -> & ->);
    [by apply wf_step | done |]. by rewrite Ht, Htr.
Qed.

Lemma wf_run w l : wf w → wf (run w l).
Proof.
  revert w. induction l as [|i l IH]; intros w Hw; [done|].
  change (run w (i :: l)) with (run (step w i) l). by apply IH, wf_step.
Qed.

Lemma close_keeps_socket_count w s failed :
  length (sockets (step w (EvClose s failed))) = length (sockets w).
Proof.
  cbn [step]. unfold onclose, onerror, scheduleReconnect, close_current, sock_close.
  destruct (sockets w !! s) as [[]|]; destruct failed; simpl;
    repeat (case_match; simpl in *; simplify_eq);
    simpl; by rewrite ?length_insert.
Qed.

Lemma timeout_runs_connect w h :
  wf w → reconnectTimer (client w) = Some h → fires_one_reconnect w h.
Proof.
  intros Hw Hh. pose proof (wf_timers w Hw) as Ht. rewrite Hh in Ht.
  unfold fires_one_reconnect. cbn [step].
  rewrite decide_True by (rewrite Ht; by apply elem_of_singleton).
  unfold reconnect_fired, connect, created. simpl.
  rewrite Ht, difference_diag_L, !omap_app. simpl.
  by rewrite !app_nil_r.
Qed.

(** C6: at most one reconnect timer is armed at any time.  A close
    signal arms exactly one, for the fixed delay of 3000 ms, when none is
    armed, and arms none when one is; however many further close signals
    arrive before the timer fires, the armed timer stays the only one.
    The armed timeout is a reconnect attempt: when it fires, the client
    forgets it and runs [connect()] once, so a burst of close signals is
    followed by one new socket, not by several. *)
Theorem one_reconnect_timer u t w :
  reachable u t w →
  size (timers w) ≤ 1 ∧
  (∀ s failed, can_close w s →
     let w' := step w (EvClose s failed) in
     match reconnectTimer (client w) with
     | None =>
         ∃ h, reconnectTimer (client w') = Some h ∧ timers w' = {[h]} ∧
              scheduled (trace w') = scheduled (trace w) ++ [(h, 3000%Z)] ∧
              fires_one_reconnect w' h
     | Some h =>
         reconnectTimer (client w') = Some h ∧ timers w' = timers w ∧
         scheduled (trace w') = scheduled (trace w) ∧
         fires_one_reconnect w' h
     end) ∧
  (∀ (closes : list (nat * bool)) h,
     reconnectTimer (client w) = Some h →
     let w' := run w (close_signals closes) in
     reconnectTimer (client w') = Some h ∧ timers w' = {[h]} ∧
     scheduled (trace w') = scheduled (trace w) ∧
     length (sockets w') = length (sockets w) ∧
     fires_one_reconnect w' h).
Proof.
  intros Hw%reachable_wf. split; [|split].
  - rewrite (wf_timers w Hw). destruct (reconnectTimer (client w)).
    + by rewrite size_singleton.
    + rewrite size_empty. lia.
  - intros s failed Hs. cbv zeta.
    pose proof (wf_step w (EvClose s failed) Hw) as Hw'.
    destruct (reconnectTimer (client w)) as [h|] eqn:Hh.
    + destruct (close_while_armed w s failed h Hw Hh) as (Hh' & Ht' & Hs').
      do 3 (split; [done|]). by apply timeout_runs_connect.
    + assert (∃ h, reconnectTimer (client (step w (EvClose s failed))) = Some h ∧
                   timers (step w (EvClose s failed)) = {[h]} ∧
                   scheduled (trace (step w (EvClose s failed)))
                   = scheduled (trace w) ++ [(h, 3000%Z)]) as (h & Hh' & Ht' & Hs').
      { rewrite (step_close_enabled w s failed Hs).
        destruct (before_onclose w s failed) as (Hc & Ht & Hseq & Htr & _).
        edestruct onclose_unarmed as (-> & -> & ->); [by rewrite Hc|].
        eexists. split; [done|]. rewrite Ht, Htr, (wf_timers w Hw), Hh.
        by rewrite (right_id_L ∅ (∪)). }
      exists h. do 3 (split; [done|]). by apply timeout_runs_connect.
  - intros closes h Hh. cbv zeta.
    pose proof (wf_run w (close_signals closes) Hw) as Hw'.
    destruct (closes_while_armed w closes h Hw Hh) as (Hh' & Ht' & Hs').
    split; [done|]. split; [by rewrite Ht', (wf_timers w Hw), Hh|].
    split; [done|]. split; [|by apply timeout_runs_connect].
    clear. revert w. induction closes as [|[s failed] closes IH]; intros w; [done|].
    change (run w (close_signals ((s, failed) :: closes)))
      with (run (step w (EvClose s failed)) (close_signals closes)).
    by rewrite IH, close_keeps_socket_count.
Qed.

Lemma one_reconnect_timer_witness :
  reachable "ws://127.0.0.1:18789/" "secret" handshake_sent ∧
  can_close handshake_sent 0 ∧
  (∃ h, reconnectTimer (client closed_once) = Some h ∧ timers closed_once = {[h]} ∧
        scheduled (trace closed_once) = scheduled (trace handshake_sent) ++ [(h, 3000%Z)] ∧
        fires_one_reconnect closed_once h) ∧
  size (timers closed_once) ≤ 1 ∧
  reachable "ws://127.0.0.1:18789/" "secret" armed_with_live_sockets ∧
  reconnectTimer (client armed_with_live_sockets) = Some 1 ∧
  sockets armed_with_live_sockets = [CLOSED; CONNECTING; CONNECTING] ∧
  sockets (run armed_with_live_sockets (close_signals [(1, true); (2, false)]))
  = [CLOSED; CLOSED; CLOSED] ∧
  statuses (trace (run armed_with_live_sockets (close_signals [(1, true); (2, false)])))
  = statuses (trace armed_with_live_sockets) ++ [false; false] ∧
  scheduled (trace (run armed_with_live_sockets (close_signals [(1, true); (2, false)])))
  = [(1, 3000%Z)] ∧
  timers (run armed_with_live_sockets (close_signals [(1, true); (2, false)])) = {[1]} ∧
  sockets (step (run armed_with_live_sockets (close_signals [(1, true); (2, false)]))
                (EvTimeout 1))
  = [CLOSED; CLOSED; CLOSED; CONNECTING].
Proof.
  assert (reachable "ws://127.0.0.1:18789/" "secret" handshake_sent) as Hr
    by apply reachable_run, reachable_init.
  assert (can_close handshake_sent 0) as Hc
    by (exists OPEN; split; [reflexivity | discriminate]).
  assert (reachable "ws://127.0.0.1:18789/" "secret" armed_with_live_sockets) as Hr'
    by apply reachable_run, Hr.
  assert (reconnectTimer (client armed_with_live_sockets) = Some 1) as Hh by reflexivity.
  destruct (proj2 (proj2 (one_reconnect_timer _ _ _ Hr')) [(1, true); (2, false)] 1 Hh)
    as (_ & Ht & Hs & _ & Hfire).
  split; [exact Hr | split; [exact Hc | split; [|split]]].
  - exact (proj1 (proj2 (one_reconnect_timer _ _ _ Hr)) 0 true Hc).
  - exact (proj1 (one_reconnect_timer _ _ closed_once (reachable_step _ _ _ _ Hr))).
  - split; [exact Hr' | split; [exact Hh |]].
    split; [reflexivity | split; [reflexivity | split; [reflexivity |]]].
    split; [exact Hs | split; [exact Ht |]].
    exact (proj1 Hfire).
Defined.

(** ** What [connect] and [disconnect] touch *)

(** C10: [connect] creates a socket, makes it the current one and
    writes to the console; the pending table, the promises and the
    reconnect timer are untouched and no earlier socket is closed or
    otherwise changed.  An entry recorded before the call is therefore
    still there, and a response that arrives on the new socket once it
    is open settles it (the handshake sent on opening draws an id of its
    own). *)
Theorem connect_keeps_pending u t w :
  reachable u t w →
  pending (client (connect w)) = pending (client w) ∧
  reconnectTimer (client (connect w)) = reconnectTimer (client w) ∧
  timers (connect w) = timers w ∧
  promises (connect w) = promises w ∧
  ws (client (connect w)) = Some (length (sockets w)) ∧
  sockets (connect w) = sockets w ++ [CONNECTING] ∧
  trace (connect w)
  = trace w ++ [ConsoleLog ["Connecting to gateway:"; url (client w)];
                SockNew (length (sockets w)) (url (client w))] ∧
  (∀ id p frame rnd,
     pending (client w) !! id = Some p → response_for id frame →
     substring_from 2 rnd ≠ id →
     let n := length (sockets w) in
     let w' := run (connect w) [EvOpen n rnd; EvMessage n (Some frame)] in
     promises w' !! p = Some (Done (answer frame)) ∧
     pending (client w') !! id = None).
Proof.
  intros Hw%reachable_wf.
  do 6 (split; [done|]). split; [simpl; by rewrite <- app_assoc|].
  intros id p frame rnd Hp Hf Hrnd. cbv zeta.
  pose proof (wf_waiting w Hw id p Hp) as Hwait.
  pose proof (lookup_lt_Some _ _ _ Hwait) as Hlt.
  set (n := length (sockets w)).
  change (run (connect w) [EvOpen n rnd; EvMessage n (Some frame)])
    with (step (step (connect w) (EvOpen n rnd)) (EvMessage n (Some frame))).
  assert (sockets (connect w) !! n = Some CONNECTING) as Hn.
  { simpl. rewrite lookup_app_r by done. by rewrite Nat.sub_diag. }
  assert (sockets (step (connect w) (EvOpen n rnd)) !! n = Some OPEN ∧
          pending (client (step (connect w) (EvOpen n rnd))) !! id = Some p)
    as [Hopen Hp'].
  { cbn [step]. rewrite Hn. unfold onopen, authenticate, request. simpl.
    rewrite decide_True.
    - simpl. split.
      + apply list_lookup_insert_eq. rewrite length_app. simpl. lia.
      + by rewrite lookup_insert_ne.
    - apply list_lookup_insert_eq. rewrite length_app. simpl. lia. }
  destruct (response_settles (step (connect w) (EvOpen n rnd)) n id p frame)
    as (-> & -> & _); try done.
  { by apply wf_step, wf_connect. }
  split; [|apply lookup_delete_eq].
  apply list_lookup_insert_eq.
  eapply lookup_lt_Some, (wf_waiting (step (connect w) (EvOpen n rnd))); [|done].
  by apply wf_step, wf_connect.
Qed.

(** The handshake is still unanswered when the user interface calls
    [connect] a second time; the answer arrives on the second socket. *)
Lemma connect_keeps_pending_witness :
  reachable "ws://127.0.0.1:18789/" "secret" handshake_sent ∧
  pending (client handshake_sent) !! "i" = Some 0 ∧
  sockets (connect handshake_sent) = [OPEN; CONNECTING] ∧
  promises (run (connect handshake_sent)
                [EvOpen 1 "0.k";
                 EvMessage 1 (Some (JObj [("type", JStr "res"); ("id", JStr "i");
                                          ("ok", JBool true)]))]) !! 0
  = Some (Done (Fulfilled None)).
Proof.
  assert (reachable "ws://127.0.0.1:18789/" "secret" handshake_sent) as Hr
    by apply reachable_run, reachable_init.
  assert (pending (client handshake_sent) !! "i" = Some 0) as Hp
    by (vm_compute; reflexivity).
  assert (response_for "i" (JObj [("type", JStr "res"); ("id", JStr "i");
                                  ("ok", JBool true)])) as Hf
    by (repeat split; by exists true).
  assert (substring_from 2 "0.k" ≠ "i") as Hne by discriminate.
  destruct (connect_keeps_pending _ _ _ Hr) as (_ & _ & _ & _ & _ & Hs & _ & Hsettle).
  split; [exact Hr | split; [exact Hp | split; [exact Hs|]]].
  exact (proj1 (Hsettle "i" 0 _ "0.k" Hp Hf Hne)).
Defined.




(** * Further properties of the client *)

(** ** What one turn of the event loop can do to the promises *)

Ltac unfold_step :=
  unfold step, onopen, authenticate, request, onmessage, onclose, onerror,
    scheduleReconnect, reconnect_fired, connect, disconnect, close_current,
    sock_close, settle, pending_get.

Lemma step_promises w i :
  (promises (step w i) = promises w ∧
   settlements (trace (step w i)) = settlements (trace w) ∧
   sent (trace (step w i)) = sent (trace w)) ∨
  (∃ s f, promises (step w i) = promises w ++ [Waiting] ∧
          settlements (trace (step w i)) = settlements (trace w) ∧
          sent (trace (step w i)) = sent (trace w) ++ [(s, f)]) ∨
  (∃ p r, promises w !! p = Some Waiting ∧
          promises (step w i) = <[p := Done r]> (promises w) ∧
          settlements (trace (step w i)) = settlements (trace w) ++ [(p, r)] ∧
          sent (trace (step w i)) = sent (trace w)).
Proof.
  unfold settlements, sent.
  destruct i; unfold_step; simpl;
    repeat (case_match; simpl in *; simplify_eq).
  all: simpl; rewrite ?omap_app; simpl; rewrite ?app_nil_r; eauto 10.
Qed.

Lemma step_sockets w i :
  url (client (step w i)) = url (client w) ∧
  token (client (step w i)) = token (client w) ∧
  ((length (sockets (step w i)) = length (sockets w) ∧
    created (trace (step w i)) = created (trace w)) ∨
   (length (sockets (step w i)) = S (length (sockets w)) ∧
    created (trace (step w i))
    = created (trace w) ++ [(length (sockets w), url (client w))])).
Proof.
  unfold created.
  destruct i; unfold_step; simpl;
    repeat (case_match; simpl in *; simplify_eq).
  all: simpl; rewrite ?omap_app; simpl;
    rewrite ?app_nil_r, ?length_app, ?length_insert; simpl;
    rewrite ?Nat.add_1_r; eauto 10.
Qed.

Lemma reachable_url u t w :
  reachable u t w → url (client w) = u ∧ token (client w) = t.
Proof.
  induction 1 as [|w i _ [IHu IHt]]; [done|].
  destruct (step_sockets w i) as (-> & -> & _). done.
Qed.

(** ** Promises *)

(** X1: in every reachable world each entry of the pending table holds
    a promise that is still waiting and that the trace has never
    settled, and two ids never share a promise; the current socket, if
    any, is one the client created. *)
Theorem pending_entries_wait u t w :
  reachable u t w →
  (∀ id p, pending (client w) !! id = Some p →
           promises w !! p = Some Waiting ∧ p ∉ (settlements (trace w)).*1) ∧
  (∀ id1 id2 p, pending (client w) !! id1 = Some p →
                pending (client w) !! id2 = Some p → id1 = id2) ∧
  (∀ s, ws (client w) = Some s → is_Some (sockets w !! s)).
Proof.
  intros Hr. pose proof (reachable_wf u t w Hr) as Hw.
  split; [|split].
  - intros id p Hp. split; [by eapply wf_waiting|].
    assert (∀ q r, (q, r) ∈ settlements (trace w) →
                   ∃ r', promises w !! q = Some (Done r')) as Hdone.
    { clear id p Hp Hw. induction Hr as [|w i Hr IH]; [by intros q r Hq%elem_of_nil|].
      intros q r Hq.
      destruct (step_promises w i) as [(-> & Hs & _)|[(s & f & -> & Hs & _)|
        (p & r' & Hp & -> & Hs & _)]]; rewrite Hs in Hq.
      - by eapply IH.
      - destruct (IH q r Hq) as [r' Hr']. exists r'.
        by rewrite lookup_app_l by (by eapply lookup_lt_Some).
      - apply elem_of_app in Hq as [Hq|Hq%list_elem_of_singleton].
        + destruct (IH q r Hq) as [r'' Hr'']. exists r''.
          rewrite list_lookup_insert_ne; [done|]. intros <-. congruence.
        + injection Hq as -> ->. exists r'.
          apply list_lookup_insert_eq. by eapply lookup_lt_Some. }
    intros ((q & r) & -> & Hq)%list_elem_of_fmap. simpl in *.
    destruct (Hdone q r Hq) as [r' Hr']. apply (wf_waiting w Hw) in Hp. congruence.
  - apply (wf_inj w Hw).
  - intros s Hs. apply lookup_lt_is_Some. by apply (wf_ws w Hw).
Qed.

Lemma pending_entries_wait_witness :
  reachable "ws://127.0.0.1:18789/" "secret" two_outstanding ∧
  promises two_outstanding !! 1 = Some Waiting ∧
  1 ∉ (settlements (trace two_outstanding)).*1.
Proof.
  assert (reachable "ws://127.0.0.1:18789/" "secret" two_outstanding) as Hr
    by apply reachable_run, reachable_run, reachable_init.
  assert (pending (client two_outstanding) !! "a" = Some 1) as Hp
    by (vm_compute; reflexivity).
  split; [exact Hr|].
  exact (proj1 (pending_entries_wait _ _ _ Hr) "a" 1 Hp).
Defined.

(** X2: no promise is settled twice, and the state of a promise is what
    the trace says: it is done with [r] exactly when the trace holds the
    one settlement [(p, r)]. *)
Theorem promise_settled_once u t w :
  reachable u t w →
  NoDup (settlements (trace w)).*1 ∧
  ∀ p r, (p, r) ∈ settlements (trace w) ↔ promises w !! p = Some (Done r).
Proof.
  induction 1 as [|w i Hr [IHn IHs]].
  - split; [constructor|]. intros p r. simpl. split; [by intros ?%elem_of_nil | done].
  - destruct (step_promises w i) as [(-> & -> & _)|[(s & f & -> & -> & _)|
      (p & r & Hp & -> & -> & _)]]; [done | |].
    + split; [done|]. intros p r. rewrite IHs. split.
      * intros Hp. by rewrite lookup_app_l by (by eapply lookup_lt_Some).
      * intros Hp. destruct (decide (p < length (promises w))) as [Hlt|Hge].
        -- by rewrite lookup_app_l in Hp.
        -- rewrite lookup_app_r in Hp by lia.
           destruct (p - length (promises w)); simpl in Hp; [congruence|done].
    + assert (p ∉ (settlements (trace w)).*1) as Hfresh.
      { intros ((q & r') & -> & Hq)%list_elem_of_fmap. apply IHs in Hq.
        simpl in *. congruence. }
      pose proof (lookup_lt_Some _ _ _ Hp) as Hlt. split.
      * rewrite fmap_app. apply NoDup_app. split; [done|]. split.
        -- intros q Hq ->%list_elem_of_singleton. done.
        -- apply NoDup_singleton.
      * intros q r'. rewrite elem_of_app, list_elem_of_singleton, IHs.
        destruct (decide (q = p)) as [->|Hne].
        -- rewrite list_lookup_insert_eq by done. split.
           ++ intros [Hq|[= ->]]; [congruence | done].
           ++ intros [= ->]. by right.
        -- rewrite list_lookup_insert_ne by done. split.
           ++ intros [Hq|[= -> _]]; done.
           ++ by left.
Qed.

Lemma promise_settled_once_witness :
  reachable "ws://127.0.0.1:18789/" "secret"
            (run two_outstanding (deliver 0 [reply_b; reply_a; reply_b])) ∧
  NoDup (settlements (trace (run two_outstanding
                               (deliver 0 [reply_b; reply_a; reply_b])))).*1.
Proof.
  assert (reachable "ws://127.0.0.1:18789/" "secret"
            (run two_outstanding (deliver 0 [reply_b; reply_a; reply_b]))) as Hr
    by apply reachable_run, reachable_run, reachable_run, reachable_init.
  split; [exact Hr | exact (proj1 (promise_settled_once _ _ _ Hr))].
Defined.

(** X3: a promise that has been settled keeps its result through
    whatever happens next: later responses, closes, reconnects and
    requests never change it. *)
Theorem settled_promise_is_final w l p r :
  promises w !! p = Some (Done r) →
  promises (run w l) !! p = Some (Done r).
Proof.
  revert w. induction l as [|i l IH]; intros w Hp; [done|].
  change (run w (i :: l)) with (run (step w i) l). apply IH.
  destruct (step_promises w i) as [(-> & _)|[(s & f & -> & _)|
    (q & r' & Hq & -> & _)]]; [done | |].
  - by rewrite lookup_app_l by (by eapply lookup_lt_Some).
  - rewrite list_lookup_insert_ne; [done|]. intros ->. congruence.
Qed.

Lemma settled_promise_is_final_witness :
  promises (step two_outstanding (EvMessage 0 (Some reply_a))) !! 1
  = Some (Done (Fulfilled (Some (JStr "for A")))) ∧
  promises (run (step two_outstanding (EvMessage 0 (Some reply_a)))
                [EvMessage 0 (Some reply_a); EvClose 0 true; EvTimeout 1;
                 EvOpen 1 "0.a"]) !! 1
  = Some (Done (Fulfilled (Some (JStr "for A")))).
Proof.
  assert (promises (step two_outstanding (EvMessage 0 (Some reply_a))) !! 1
          = Some (Done (Fulfilled (Some (JStr "for A"))))) as H
    by (vm_compute; reflexivity).
  split; [exact H | exact (settled_promise_is_final _ _ 1 _ H)].
Defined.

(** X4: the client puts exactly one frame on the wire for every promise
    it creates: a request is sent once and never sent again, whatever
    closes and reconnects follow. *)
Theorem one_frame_per_promise u t w :
  reachable u t w → length (sent (trace w)) = length (promises w).
Proof.
  induction 1 as [|w i Hr IH]; [done|].
  destruct (step_promises w i) as [(-> & _ & ->)|[(s & f & -> & _ & ->)|
    (p & r & _ & -> & _ & ->)]]; [done | |].
  - rewrite !length_app. simpl. lia.
  - by rewrite length_insert.
Qed.

Lemma one_frame_per_promise_witness :
  reachable "ws://127.0.0.1:18789/" "secret"
            (run two_outstanding [EvClose 0 false; EvTimeout 1; EvOpen 1 "0.c"]) ∧
  length (sent (trace (run two_outstanding
                         [EvClose 0 false; EvTimeout 1; EvOpen 1 "0.c"]))) = 4.
Proof.
  assert (reachable "ws://127.0.0.1:18789/" "secret"
            (run two_outstanding [EvClose 0 false; EvTimeout 1; EvOpen 1 "0.c"])) as Hr
    by apply reachable_run, reachable_run, reachable_run, reachable_init.
  split; [exact Hr | exact (one_frame_per_promise _ _ _ Hr)].
Defined.

(** ** Sockets *)

(** X5: the url and the token given to the constructor never change,
    and every socket the client has created was created by [connect]
    for that url: the sockets are, in order of creation, the entries of
    the trace that open one. *)
Theorem sockets_created_for_url u t w :
  reachable u t w →
  url (client w) = u ∧ token (client w) = t ∧
  created (trace w) = (λ k, (k, u)) <$> seq 0 (length (sockets w)).
Proof.
  intros Hr. destruct (reachable_url u t w Hr) as [Hu Ht].
  split; [done | split; [done|]]. clear Hu Ht.
  induction Hr as [|w i Hr IH]; [done|].
  destruct (reachable_url u t w Hr) as [Hu _].
  destruct (step_sockets w i) as (_ & _ & [[-> ->]|[-> ->]]); [done|].
  rewrite seq_S, fmap_app, IH, Hu. done.
Qed.

Lemma sockets_created_for_url_witness :
  reachable "ws://127.0.0.1:18789/" "secret"
            (run handshake_sent [CallConnect; EvClose 0 true; EvTimeout 1]) ∧
  created (trace (run handshake_sent [CallConnect; EvClose 0 true; EvTimeout 1]))
  = [(0, "ws://127.0.0.1:18789/"); (1, "ws://127.0.0.1:18789/");
     (2, "ws://127.0.0.1:18789/")].
Proof.
  assert (reachable "ws://127.0.0.1:18789/" "secret"
            (run handshake_sent [CallConnect; EvClose 0 true; EvTimeout 1])) as Hr
    by apply reachable_run, reachable_run, reachable_init.
  split; [exact Hr|].
  exact (proj2 (proj2 (sockets_created_for_url _ _ _ Hr))).
Defined.

(** ** The handshake *)

(** X6: when the current socket opens, the status observer is told
    [true] and exactly one frame goes out on that socket: the request
    ["connect"] with protocol version 3, the client descriptor, the role
    and the token given to the constructor.  Its promise is recorded in
    the pending table and awaited by [authenticate]. *)
Theorem open_sends_handshake u t w s rnd :
  reachable u t w →
  ws (client w) = Some s → sockets w !! s = Some CONNECTING →
  let w' := step w (EvOpen s rnd) in
  sockets w' = <[s := OPEN]> (sockets w) ∧
  trace w' = trace w ++ [StatusChange true; SockSend s (handshake_frame t rnd)] ∧
  pending (client w')
  = <[substring_from 2 rnd := length (promises w)]> (pending (client w)) ∧
  promises w' = promises w ++ [Waiting] ∧
  handshakes w' = {[length (promises w)]} ∪ handshakes w.
Proof.
  intros Hr Hws Hs. destruct (reachable_url u t w Hr) as [_ Ht].
  pose proof (lookup_lt_Some _ _ _ Hs) as Hlt.
  cbv zeta. cbn [step]. rewrite Hs.
  unfold onopen, authenticate, request. simpl. rewrite Hws.
  rewrite decide_True by (by apply list_lookup_insert_eq).
  simpl. by rewrite Ht, <- app_assoc.
Qed.

Lemma open_sends_handshake_witness :
  reachable "ws://127.0.0.1:18789/" "secret"
            (step (init "ws://127.0.0.1:18789/" "secret") CallConnect) ∧
  trace handshake_sent
  = [ConsoleLog ["Connecting to gateway:"; "ws://127.0.0.1:18789/"];
     SockNew 0 "ws://127.0.0.1:18789/"; StatusChange true;
     SockSend 0 (handshake_frame "secret" "0.i")].
Proof.
  assert (reachable "ws://127.0.0.1:18789/" "secret"
            (step (init "ws://127.0.0.1:18789/" "secret") CallConnect)) as Hr
    by apply reachable_step, reachable_init.
  split; [exact Hr|].
  exact (proj1 (proj2 (open_sends_handshake _ _ _ 0 "0.i" Hr eq_refl eq_refl))).
Defined.

(** X7: the handshake is sent on the socket that is current when a
    socket opens, not on the socket that opened.  When a socket other
    than the current one opens, the status observer is still told
    [true]; if the current socket is not open the handshake fails on
    the spot with the not-connected error, which is only written to the
    console, and if it is open a handshake goes out on it. *)
Theorem open_of_stale_socket w s s' rnd :
  ws (client w) = Some s' → s ≠ s' → sockets w !! s = Some CONNECTING →
  (sockets w !! s' ≠ Some OPEN →
   step w (EvOpen s rnd)
   = emit (ConsoleError "Authentication failed:" (JsError "Not connected to gateway"))
          (emit (StatusChange true) (set_sockets (<[s := OPEN]> (sockets w)) w))) ∧
  (sockets w !! s' = Some OPEN →
   trace (step w (EvOpen s rnd))
   = trace w ++ [StatusChange true;
                 SockSend s' (handshake_frame (token (client w)) rnd)]).
Proof.
  intros Hws Hne Hs. cbn [step]. rewrite Hs.
  unfold onopen, authenticate, request. simpl. rewrite Hws.
  rewrite list_lookup_insert_ne by done. split; intros Hs'.
  - by rewrite decide_False.
  - rewrite decide_True by done. simpl. by rewrite <- app_assoc.
Qed.

(** The user interface has called [connect] twice; the first socket
    opens while the second, which is current, is still connecting. *)
Lemma open_of_stale_socket_witness :
  ws (client (run (init "ws://127.0.0.1:18789/" "secret") [CallConnect; CallConnect]))
  = Some 1 ∧
  trace (run (init "ws://127.0.0.1:18789/" "secret")
             [CallConnect; CallConnect; EvOpen 0 "0.i"])
  = trace (run (init "ws://127.0.0.1:18789/" "secret") [CallConnect; CallConnect]) ++
    [StatusChange true;
     ConsoleError "Authentication failed:" (JsError "Not connected to gateway")].
Proof.
  assert (ws (client (run (init "ws://127.0.0.1:18789/" "secret")
                          [CallConnect; CallConnect])) = Some 1) as Hws by reflexivity.
  split; [exact Hws|].
  change (run (init "ws://127.0.0.1:18789/" "secret")
              [CallConnect; CallConnect; EvOpen 0 "0.i"])
    with (step (run (init "ws://127.0.0.1:18789/" "secret")
                    [CallConnect; CallConnect]) (EvOpen 0 "0.i")).
  rewrite (proj1 (open_of_stale_socket _ 0 1 "0.i" Hws ltac:(discriminate) eq_refl)
             ltac:(discriminate)).
  reflexivity.
Defined.

(** X8: the answer to a request only settles its promise; when the
    promise is that of a handshake, [authenticate] also writes the
    outcome to the console.  A rejected handshake changes nothing else:
    the socket stays open and current, no timer is armed, and [request]
    keeps sending on it. *)
Theorem handshake_answer_is_only_logged u t w s id p frame :
  reachable u t w →
  sockets w !! s = Some OPEN → pending (client w) !! id = Some p →
  response_for id frame →
  let w' := step w (EvMessage s (Some frame)) in
  trace w' = trace w ++ Settle p (answer frame) ::
               (if decide (p ∈ handshakes w) then [handshake_report (answer frame)]
                else []) ∧
  handshakes w' = handshakes w ∖ {[p]} ∧
  sockets w' = sockets w ∧ timers w' = timers w ∧
  ws (client w') = ws (client w) ∧
  reconnectTimer (client w') = reconnectTimer (client w) ∧
  (ws (client w) = Some s →
   ∀ method params rnd, fst (request method params rnd w') = Awaits (length (promises w))).
Proof.
  intros Hw%reachable_wf Hs Hp Hf.
  pose proof (wf_waiting w Hw id p Hp) as Hwait.
  cbv zeta. cbn [step]. rewrite Hs, (onmessage_response w id p frame Hp Hf).
  unfold settle. simpl. rewrite Hwait.
  assert (∀ w1, sockets w1 = sockets w → ws (client w1) = ws (client w) →
                length (promises w1) = length (promises w) →
                ws (client w) = Some s →
                ∀ method params rnd,
                  fst (request method params rnd w1) = Awaits (length (promises w)))
    as Hreq.
  { intros w1 Hs1 Hws1 Hl Hws method params rnd. unfold request.
    rewrite Hws1, Hws, Hs1. rewrite decide_True by done. simpl. by rewrite Hl. }
  case_decide as Hin.
  - destruct (answer frame); simpl; rewrite <- app_assoc;
      repeat (split; [done|]); apply Hreq; simpl; by rewrite ?length_insert.
  - simpl. split; [done|].
    split; [symmetry; by apply difference_disjoint_L, disjoint_singleton_r|].
    repeat (split; [done|]).
    apply Hreq; simpl; by rewrite ?length_insert.
Qed.

Lemma handshake_answer_is_only_logged_witness :
  reachable "ws://127.0.0.1:18789/" "secret" handshake_sent ∧
  trace (step handshake_sent (EvMessage 0 (Some handshake_refused)))
  = trace handshake_sent ++
    [Settle 0 (Rejected (Some (JObj [("code", JStr "UNAUTHORIZED");
                                     ("message", JStr "bad token")])));
     ConsoleError "Authentication failed:"
       (JsValue (Some (JObj [("code", JStr "UNAUTHORIZED");
                             ("message", JStr "bad token")])))] ∧
  fst (request "chat.send" None "0.a"
         (step handshake_sent (EvMessage 0 (Some handshake_refused))))
  = Awaits 1.
Proof.
  assert (reachable "ws://127.0.0.1:18789/" "secret" handshake_sent) as Hr
    by apply reachable_run, reachable_init.
  assert (pending (client handshake_sent) !! "i" = Some 0) as Hp
    by (vm_compute; reflexivity).
  assert (response_for "i" handshake_refused) as Hf
    by (repeat split; by exists false).
  destruct (handshake_answer_is_only_logged _ _ _ 0 "i" 0 handshake_refused
              Hr eq_refl Hp Hf) as (Htr & _ & _ & _ & _ & _ & Hreq).
  split; [exact Hr | split].
  - rewrite Htr. reflexivity.
  - exact (Hreq eq_refl "chat.send" None "0.a").
Defined.

(** ** Responses, whatever they carry *)

Lemma onmessage_matching w id p frame :
  pending (client w) !! id = Some p →
  is_response frame → get_field frame "id" = Some (JStr id) →
  onmessage (Some frame) w
  = settle p (outcome frame)
           (with_client (set_pending (delete id (pending (client w)))) w).
Proof.
  unfold is_response, onmessage, outcome. intros Hp Ht Hid.
  assert (pending_get (get_field frame "id") w = Some (id, p)) as Hget.
  { unfold pending_get. by rewrite Hid, Hp. }
  destruct frame; try done. rewrite Ht, Hget. simpl.
  by destruct (truthy _).
Qed.

(** X9: a response for an outstanding id always settles its promise and
    removes the entry, [ok] being judged as JavaScript judges a
    condition: a truthy [ok] resolves with the payload, anything else
    (also a missing [ok]) rejects with the frame's [error].  The entry
    being gone, a further response for the same id is ignored. *)
Theorem response_consumes_entry u t w s id p frame frame' :
  reachable u t w →
  sockets w !! s = Some OPEN → pending (client w) !! id = Some p →
  is_response frame → get_field frame "id" = Some (JStr id) →
  is_response frame' → get_field frame' "id" = Some (JStr id) →
  let w' := step w (EvMessage s (Some frame)) in
  promises w' !! p = Some (Done (outcome frame)) ∧
  pending (client w') = delete id (pending (client w)) ∧
  step w' (EvMessage s (Some frame')) = w'.
Proof.
  intros Hw%reachable_wf Hs Hp Ht Hid Ht' Hid'.
  pose proof (wf_waiting w Hw id p Hp) as Hwait.
  cbv zeta.
  assert (step w (EvMessage s (Some frame))
          = settle p (outcome frame)
              (with_client (set_pending (delete id (pending (client w)))) w)) as ->.
  { cbn [step]. rewrite Hs. by apply onmessage_matching. }
  destruct (settle_waiting p (outcome frame)
              (with_client (set_pending (delete id (pending (client w)))) w))
    as (Hpr & Hcl & Hso & _); [done|].
  rewrite Hpr, Hcl. simpl. split; [|split; [done|]].
  - apply list_lookup_insert_eq. by eapply lookup_lt_Some.
  - cbn [step]. rewrite Hso. simpl. rewrite Hs.
    apply onmessage_unmatched; [done|].
    intros id' Hid''. rewrite Hid' in Hid''. injection Hid'' as <-.
    rewrite Hcl. simpl. apply lookup_delete_eq.
Qed.

Lemma response_consumes_entry_witness :
  reachable "ws://127.0.0.1:18789/" "secret" two_outstanding ∧
  promises (step two_outstanding (EvMessage 0 (Some reply_without_ok))) !! 1
  = Some (Done (Rejected None)) ∧
  step (step two_outstanding (EvMessage 0 (Some reply_without_ok)))
       (EvMessage 0 (Some reply_a))
  = step two_outstanding (EvMessage 0 (Some reply_without_ok)).
Proof.
  assert (reachable "ws://127.0.0.1:18789/" "secret" two_outstanding) as Hr
    by apply reachable_run, reachable_run, reachable_init.
  assert (pending (client two_outstanding) !! "a" = Some 1) as Hp
    by (vm_compute; reflexivity).
  destruct (response_consumes_entry _ _ _ 0 "a" 1 reply_without_ok reply_a
              Hr eq_refl Hp eq_refl eq_refl eq_refl eq_refl) as (H1 & _ & H2).
  split; [exact Hr | split; [exact H1 | exact H2]].
Defined.

(** ** Closing *)

(** X10: the error callback closes the socket that is current, not the
    socket that failed.  When a socket other than the current one fails
    while the current one is open, the open connection is asked to
    close; a clean close of that other socket leaves it alone. *)
Theorem failure_of_stale_socket_closes_current w s s' :
  ws (client w) = Some s' → s ≠ s' → can_close w s →
  sockets w !! s' = Some OPEN →
  sockets (step w (EvClose s true)) = <[s' := CLOSING]> (<[s := CLOSED]> (sockets w)) ∧
  SockClose s' ∈ trace (step w (EvClose s true)) ∧
  sockets (step w (EvClose s false)) = <[s := CLOSED]> (sockets w).
Proof.
  intros Hws Hne Hs Hs'.
  rewrite !(step_close_enabled w s _ Hs).
  unfold onclose, onerror, close_current, sock_close. simpl.
  rewrite Hws, list_lookup_insert_ne, Hs' by done.
  unfold scheduleReconnect. simpl.
  destruct (timer_set (reconnectTimer (client w))); simpl;
    (split; [done | split; [|done]]);
    rewrite ?elem_of_app, ?list_elem_of_singleton; auto.
Qed.

Lemma failure_of_stale_socket_closes_current_witness :
  ws (client (connect handshake_sent)) = Some 1 ∧
  can_close (run (connect handshake_sent) [EvOpen 1 "0.k"]) 0 ∧
  sockets (run (connect handshake_sent) [EvOpen 1 "0.k"; EvClose 0 true])
  = [CLOSED; CLOSING].
Proof.
  assert (ws (client (run (connect handshake_sent) [EvOpen 1 "0.k"])) = Some 1)
    as Hws by reflexivity.
  assert (can_close (run (connect handshake_sent) [EvOpen 1 "0.k"]) 0) as Hc
    by (exists OPEN; split; [reflexivity | discriminate]).
  split; [exact Hws | split; [exact Hc|]].
  exact (proj1 (failure_of_stale_socket_closes_current
                  (run (connect handshake_sent) [EvOpen 1 "0.k"]) 0 1
                  Hws ltac:(discriminate) Hc eq_refl)).
Defined.

(** X11: [disconnect] touches nothing but the ready state of the
    current socket and the trace, and calling it again changes nothing
    more. *)
Theorem disconnect_twice w :
  disconnect (disconnect w) = disconnect w ∧
  client (disconnect w) = client w ∧
  timers (disconnect w) = timers w ∧
  promises (disconnect w) = promises w ∧
  ∀ s, ws (client w) ≠ Some s → sockets (disconnect w) !! s = sockets w !! s.
Proof.
  unfold disconnect, close_current, sock_close.
  destruct (ws (client w)) as [s|] eqn:Hws; simpl; [|by rewrite Hws].
  destruct (sockets w !! s) as [st|] eqn:Hs; simpl.
  - pose proof (lookup_lt_Some _ _ _ Hs) as Hlt.
    destruct st; simpl; rewrite Hws; simpl;
      rewrite ?list_lookup_insert_eq by done; rewrite ?Hs;
      (repeat (split; [done|])); intros s' Hne;
      rewrite ?list_lookup_insert_ne by congruence; done.
  - rewrite Hws, Hs. done.
Qed.

(** ** The reconnect loop *)

Lemma reconnect_cycle_spec failed w s :
  wf w → ws (client w) = Some s → can_close w s →
  reconnectTimer (client w) = None →
  wf (reconnect_cycle failed w) ∧
  ws (client (reconnect_cycle failed w)) = Some (length (sockets w)) ∧
  sockets (reconnect_cycle failed w) = <[s := CLOSED]> (sockets w) ++ [CONNECTING] ∧
  reconnectTimer (client (reconnect_cycle failed w)) = None ∧
  timer_seq (reconnect_cycle failed w) = S (timer_seq w) ∧
  pending (client (reconnect_cycle failed w)) = pending (client w) ∧
  scheduled (trace (reconnect_cycle failed w))
  = scheduled (trace w) ++ [(S (timer_seq w), reconnect_delay)].
Proof.
  intros Hw Hws Hs Hnone. split.
  { unfold reconnect_cycle. rewrite Hws. by do 2 apply wf_step. }
  unfold reconnect_cycle. rewrite Hws.
  destruct Hs as (st & Hst & Hlive).
  pose proof (lookup_lt_Some _ _ _ Hst) as Hlt.
  rewrite (step_close_enabled w s failed) by (by exists st).
  assert ((if failed then onerror (set_sockets (<[s:=CLOSED]> (sockets w)) w)
           else set_sockets (<[s:=CLOSED]> (sockets w)) w)
          = set_sockets (<[s:=CLOSED]> (sockets w)) w) as ->.
  { destruct failed; [|done].
    unfold onerror, close_current, sock_close. simpl.
    by rewrite Hws, list_lookup_insert_eq. }
  unfold onclose, scheduleReconnect. simpl. rewrite Hnone. simpl.
  rewrite decide_True by (apply elem_of_union_l; by apply elem_of_singleton).
  simpl. rewrite length_insert, !scheduled_app. simpl.
  by rewrite !app_nil_r.
Qed.

(** X12: the reconnect loop has no cap and no back-off.  However many
    times the current socket is closed and the timer it arms fires,
    every round arms one timeout of 3000 ms and creates one new socket,
    which becomes current; the pending table goes through all of it
    unchanged. *)
Theorem reconnects_forever u t w s failed n :
  reachable u t w →
  ws (client w) = Some s → can_close w s → reconnectTimer (client w) = None →
  let w' := Nat.iter n (reconnect_cycle failed) w in
  length (sockets w') = length (sockets w) + n ∧
  ws (client w') = Some (if n is 0 then s else length (sockets w) + n - 1) ∧
  scheduled (trace w')
  = scheduled (trace w) ++ ((λ k, (timer_seq w + S k, 3000%Z)) <$> seq 0 n) ∧
  reconnectTimer (client w') = None ∧
  pending (client w') = pending (client w).
Proof.
  intros Hw%reachable_wf Hws Hs Hnone. cbv zeta.
  assert (wf (Nat.iter n (reconnect_cycle failed) w) ∧
          timer_seq (Nat.iter n (reconnect_cycle failed) w) = timer_seq w + n ∧
          (∃ c, ws (client (Nat.iter n (reconnect_cycle failed) w)) = Some c ∧
                can_close (Nat.iter n (reconnect_cycle failed) w) c ∧
                c = if n is 0 then s else length (sockets w) + n - 1) ∧
          length (sockets (Nat.iter n (reconnect_cycle failed) w))
          = length (sockets w) + n ∧
          scheduled (trace (Nat.iter n (reconnect_cycle failed) w))
          = scheduled (trace w) ++ ((λ k, (timer_seq w + S k, 3000%Z)) <$> seq 0 n) ∧
          reconnectTimer (client (Nat.iter n (reconnect_cycle failed) w)) = None ∧
          pending (client (Nat.iter n (reconnect_cycle failed) w)) = pending (client w))
    as (_ & _ & (c & Hc & _ & ->) & Hl & Hsch & Ht & Hp); [|done].
  induction n as [|n (IHw & IHseq & (c & IHc & IHlive & IHeq) & IHl & IHsch & IHt & IHp)].
  - simpl. rewrite app_nil_r, !Nat.add_0_r. split; [done|]. split; [done|].
    split; [by exists s|]. done.
  - rewrite !Nat.iter_succ.
    destruct (reconnect_cycle_spec failed _ c IHw IHc IHlive IHt)
      as (Hw' & Hws' & Hso' & Ht' & Hseq' & Hp' & Hsch').
    split; [done|]. split; [rewrite Hseq', IHseq; lia|].
    split.
    { eexists. split; [exact Hws'|]. split.
      - exists CONNECTING. rewrite Hso'. split; [|done].
        rewrite lookup_app_r by (by rewrite length_insert).
        by rewrite length_insert, Nat.sub_diag.
      - rewrite IHl. lia. }
    split; [rewrite Hso', length_app, length_insert, IHl; simpl; lia|].
    split; [|by rewrite Hp'].
    rewrite Hsch', IHsch, IHseq, seq_S, fmap_app, <- app_assoc. simpl.
    by rewrite Nat.add_succ_r.
Qed.

Lemma reconnects_forever_witness :
  reachable "ws://127.0.0.1:18789/" "secret" handshake_sent ∧
  can_close handshake_sent 0 ∧
  length (sockets (Nat.iter 3 (reconnect_cycle true) handshake_sent)) = 4 ∧
  scheduled (trace (Nat.iter 3 (reconnect_cycle true) handshake_sent))
  = [(1, 3000%Z); (2, 3000%Z); (3, 3000%Z)] ∧
  pending (client (Nat.iter 3 (reconnect_cycle true) handshake_sent))
  = pending (client handshake_sent).
Proof.
  assert (reachable "ws://127.0.0.1:18789/" "secret" handshake_sent) as Hr
    by apply reachable_run, reachable_init.
  assert (can_close handshake_sent 0) as Hc
    by (exists OPEN; split; [reflexivity | discriminate]).
  destruct (reconnects_forever _ _ handshake_sent 0 true 3 Hr eq_refl Hc eq_refl)
    as (Hl & _ & Hsch & _ & Hp).
  split; [exact Hr | split; [exact Hc | split; [exact Hl | split; [exact Hsch | exact Hp]]]].
Defined.

(** X16: while the client is reconnecting, [request] is refused: from
    the close of the current socket until the socket created by the
    reconnect opens, every call fails with the not-connected error and
    changes nothing. *)
Theorem no_requests_while_reconnecting u t w s failed method params rnd :
  reachable u t w →
  ws (client w) = Some s → can_close w s → reconnectTimer (client w) = None →
  request method params rnd (step w (EvClose s failed))
  = (Throws "Not connected to gateway", step w (EvClose s failed)) ∧
  request method params rnd (reconnect_cycle failed w)
  = (Throws "Not connected to gateway", reconnect_cycle failed w).
Proof.
  intros Hw%reachable_wf Hws Hs Hnone. split.
  - destruct Hs as (st & Hst & Hlive).
    pose proof (lookup_lt_Some _ _ _ Hst) as Hlt.
    rewrite (step_close_enabled w s failed) by (by exists st).
    assert ((if failed then onerror (set_sockets (<[s:=CLOSED]> (sockets w)) w)
             else set_sockets (<[s:=CLOSED]> (sockets w)) w)
            = set_sockets (<[s:=CLOSED]> (sockets w)) w) as ->.
    { destruct failed; [|done].
      unfold onerror, close_current, sock_close. simpl.
      by rewrite Hws, list_lookup_insert_eq. }
    unfold request, onclose, scheduleReconnect. simpl. rewrite Hnone. simpl.
    rewrite Hws, list_lookup_insert_eq by done. by destruct (decide _).
  - destruct (reconnect_cycle_spec failed w s Hw Hws Hs Hnone)
      as (_ & Hws' & Hso' & _).
    unfold request. rewrite Hws', Hso'.
    rewrite lookup_app_r by (by rewrite length_insert).
    by rewrite length_insert, Nat.sub_diag.
Qed.

Lemma no_requests_while_reconnecting_witness :
  reachable "ws://127.0.0.1:18789/" "secret" handshake_sent ∧
  can_close handshake_sent 0 ∧
  fst (request "chat.send" None "0.a" (reconnect_cycle false handshake_sent))
  = Throws "Not connected to gateway".
Proof.
  assert (reachable "ws://127.0.0.1:18789/" "secret" handshake_sent) as Hr
    by apply reachable_run, reachable_init.
  assert (can_close handshake_sent 0) as Hc
    by (exists OPEN; split; [reflexivity | discriminate]).
  split; [exact Hr | split; [exact Hc|]].
  rewrite (proj2 (no_requests_while_reconnecting _ _ handshake_sent 0 false
                    "chat.send" None "0.a" Hr eq_refl Hc eq_refl)).
  reflexivity.
Defined.

Lemma disconnect_twice_witness :
  ws (client handshake_sent) ≠ Some 1 ∧
  disconnect (disconnect handshake_sent) = disconnect handshake_sent ∧
  sockets (disconnect (connect handshake_sent)) !! 0 = Some OPEN.
Proof.
  assert (ws (client handshake_sent) ≠ Some 1) as H1 by discriminate.
  assert (ws (client (connect handshake_sent)) ≠ Some 0) as H0 by discriminate.
  split; [exact H1 | split].
  - exact (proj1 (disconnect_twice handshake_sent)).
  - rewrite (proj2 (proj2 (proj2 (proj2 (disconnect_twice (connect handshake_sent))))) 0 H0).
    reflexivity.
Defined.

(** * State updates of the user interface *)

Lemma push_log_drop {A} (x : A) (l : list A) :
  push_log x (drop (length l - 501) l) = drop (length (l ++ [x]) - 501) (l ++ [x]).
Proof.
  unfold push_log, slice_last. rewrite length_drop, drop_drop, length_app. simpl.
  rewrite drop_app_le by lia. f_equal. f_equal. lia.
Qed.

(** X13: the log buffer never holds more than 501 lines: after any
    number of log events it is the last 501 lines of everything it was
    given, oldest first, the newest line at the end. *)
Theorem log_buffer_keeps_latest {A} (prev payloads : list A) :
  payloads ≠ [] →
  log_events payloads prev
  = drop (length (prev ++ payloads) - 501) (prev ++ payloads) ∧
  length (log_events payloads prev) ≤ 501 ∧
  last (log_events payloads prev) = last payloads.
Proof.
  intros Hne.
  assert (log_events payloads prev
          = drop (length (prev ++ payloads) - 501) (prev ++ payloads)) as Heq.
  { induction payloads as [|x ps IH] using rev_ind; [done|]. clear Hne.
    unfold log_events in *. rewrite foldl_app. simpl.
    destruct ps as [|y ps'] using rev_ind.
    - simpl. unfold push_log, slice_last. rewrite length_app. simpl.
      rewrite drop_app_le by lia. f_equal. f_equal. lia.
    - clear IHps'. rewrite IH by (by destruct ps').
      rewrite push_log_drop. by rewrite <- !app_assoc. }
  split; [done|]. rewrite Heq. split.
  - rewrite length_drop. lia.
  - destruct payloads as [|x ps _] using rev_ind; [done|].
    rewrite app_assoc, drop_app_le, !last_snoc; [done|].
    rewrite !length_app. simpl. lia.
Qed.

Lemma log_buffer_keeps_latest_witness :
  seq 0 600 ≠ [] ∧
  length (log_events (seq 0 600) [1000; 1001]) = 501 ∧
  head (log_events (seq 0 600) [1000; 1001]) = Some 99 ∧
  last (log_events (seq 0 600) [1000; 1001]) = Some 599.
Proof.
  assert (seq 0 600 ≠ []) as Hne by discriminate.
  destruct (log_buffer_keeps_latest [1000; 1001] (seq 0 600) Hne) as (Heq & _ & Hlast).
  split; [exact Hne | split; [|split]].
  - rewrite Heq. vm_compute. reflexivity.
  - rewrite Heq. vm_compute. reflexivity.
  - rewrite Hlast. vm_compute. reflexivity.
Defined.

Lemma filter_from_index {A} (j k : nat) (l : list A) :
  filter_from (λ _ i, negb (i =? j)) k l
  = if j <? k then l else take (j - k) l ++ drop (S (j - k)) l.
Proof.
  revert k. induction l as [|x l IH]; intros k.
  - simpl. destruct (j <? k); [done|]. by rewrite take_nil.
  - cbn [filter_from]. rewrite IH.
    destruct (Nat.eqb_spec k j) as [->|Hne]; simpl.
    + rewrite (proj2 (Nat.ltb_lt j (S j))) by lia.
      rewrite (proj2 (Nat.ltb_ge j j)) by lia. by rewrite Nat.sub_diag.
    + destruct (Nat.ltb_spec j k) as [Hlt|Hge].
      * by rewrite (proj2 (Nat.ltb_lt j (S k))) by lia.
      * rewrite (proj2 (Nat.ltb_ge j (S k))) by lia.
        replace (j - k) with (S (j - S k)) by lia. done.
Qed.

(** X14: [removeAttachment(index)] removes the attachment at that
    position and keeps all the others in order; an index past the end
    removes nothing. *)
Theorem removeAttachment_drops_index index prev :
  removeAttachment index prev = take index prev ++ drop (S index) prev ∧
  length (removeAttachment index prev)
  = (if decide (index < length prev) then length prev - 1 else length prev) ∧
  (length prev ≤ index → removeAttachment index prev = prev).
Proof.
  assert (removeAttachment index prev = take index prev ++ drop (S index) prev) as Heq.
  { unfold removeAttachment. rewrite filter_from_index. simpl.
    by rewrite Nat.sub_0_r. }
  rewrite Heq. split; [done | split].
  - rewrite length_app, length_take, length_drop. case_decide; lia.
  - intros Hge. rewrite take_ge, drop_ge by lia. by rewrite app_nil_r.
Qed.

Lemma removeAttachment_drops_index_witness :
  length ["a.png"; "b.pdf"] ≤ 5 ∧
  removeAttachment 5 ["a.png"; "b.pdf"] = ["a.png"; "b.pdf"] ∧
  removeAttachment 1 ["a.png"; "b.pdf"; "c.txt"] = ["a.png"; "c.txt"].
Proof.
  assert (length ["a.png"; "b.pdf"] ≤ 5) as Hge by (simpl; lia).
  split; [exact Hge | split].
  - exact (proj2 (proj2 (removeAttachment_drops_index 5 ["a.png"; "b.pdf"])) Hge).
  - exact (proj1 (removeAttachment_drops_index 1 ["a.png"; "b.pdf"; "c.txt"])).
Defined.

(** X15: [toggleSkill(id)] flips the selection of [id] and of nothing
    else: afterwards [id] is selected exactly if it was not before,
    every other skill is selected exactly if it was, and a selection
    without repetitions stays without repetitions. *)
Theorem toggleSkill_flips id prev :
  (id ∈ toggleSkill id prev ↔ id ∉ prev) ∧
  (∀ s, s ≠ id → (s ∈ toggleSkill id prev ↔ s ∈ prev)) ∧
  (NoDup prev → NoDup (toggleSkill id prev)).
Proof.
  unfold toggleSkill. case_bool_decide as Hin.
  - split; [|split].
    + rewrite list_elem_of_filter. split; [by intros [Hc _] | done].
    + intros s Hne. rewrite list_elem_of_filter. split; [by intros [_ Hs] | done].
    + apply NoDup_filter.
  - split; [|split].
    + rewrite elem_of_app, list_elem_of_singleton. split; [done | by right].
    + intros s Hne. rewrite elem_of_app, list_elem_of_singleton.
      split; [by intros [Hs|Hs] | by left].
    + intros Hnd. apply NoDup_app. split; [done|]. split.
      * by intros s Hs ->%list_elem_of_singleton.
      * apply NoDup_singleton.
Qed.

Lemma toggleSkill_flips_witness :
  "browser" ≠ "terminal" ∧
  NoDup ["filesystem"; "terminal"] ∧
  ("browser" ∈ toggleSkill "terminal" ["filesystem"; "terminal"]
   ↔ "browser" ∈ ["filesystem"; "terminal"]) ∧
  NoDup (toggleSkill "terminal" ["filesystem"; "terminal"]).
Proof.
  assert ("browser" ≠ "terminal") as Hne by discriminate.
  assert (NoDup ["filesystem"; "terminal"]) as Hnd.
  { apply NoDup_cons. split; [|apply NoDup_singleton].
    intros Hin%list_elem_of_singleton. discriminate. }
  destruct (toggleSkill_flips "terminal" ["filesystem"; "terminal"])
    as (_ & Hother & Hkeep).
  split; [exact Hne | split; [exact Hnd | split]].
  - exact (Hother "browser" Hne).
  - exact (Hkeep Hnd).
Defined.
